(** * The context-selection engine of slack-llm-translate

    A shallow embedding of [utils/context-manager.js]: the configuration
    factory [createConfig], the keyword extractor [extractKeywords], the
    relevance scorer [calculateRelevance], the selector
    [selectRelevantMessages], the budgeter [truncateToCharLimit], the
    formatter [buildOptimizedContext] and the statistics accessor
    [getContextStats]; and of what surrounds it: the provider classes
    with their factory [createProvider] ([providers/]), the handler's
    [initializeLLMProvider] ([utils/base-handler.js]) and the store's
    [getHistory] ([utils/database.js]), whose query is a parameter.

    Conventions of the embedding.
    - A JavaScript string is a [string], a sequence of code units; the
      code units are the 256 of Latin-1, for which [toLowerCase], [\w],
      [\s] and [\d] are modelled exactly.
    - Lengths, timestamps and the integer configuration values are in [Z].
      A quotient the code computes is a rational rounded by a function
      [rnd], which stands for IEEE-754 rounding; a number that may be NaN
      or infinite is a [JsNumber.number].
    - The module state is the [CONFIG] object and the console.  The
      functions that log run in the state monad [M] over [World]; the two
      that do not log, [extractKeywords] and [calculateRelevance], take
      the configuration they read as an argument.
    - Built-ins ([slice], [sort], [toFixed], plain objects) are modelled
      in the modules [JsString], [JsArray], [JsNumber] and [JsObject]. *)

From Stdlib Require Import ZArith QArith Qround Qabs Ascii String Lia Lqa.
From stdpp Require Import base tactics option list sorting gmap strings pretty.

Local Open Scope Z_scope.

(** ** Characters and strings *)

Module JsString.

Definition code (c : ascii) : N := N_of_ascii c.

Definition in_range (lo hi : N) (c : ascii) : bool :=
  ((lo <=? code c) && (code c <=? hi))%N.

(** [\d] *)
Definition is_digit (c : ascii) : bool := in_range 48 57 c.

(** [\w] is [[A-Za-z0-9_]]: the regular expressions of the module carry
    neither the [u] nor the [i] flag. *)
Definition is_word_char (c : ascii) : bool :=
  is_digit c || in_range 65 90 c || in_range 97 122 c || (code c =? 95)%N.

(** [\s] below U+0100: TAB, LF, VT, FF, CR, SPACE and NBSP. *)
Definition is_space_char (c : ascii) : bool :=
  in_range 9 13 c || (code c =? 32)%N || (code c =? 160)%N.

(** [toLowerCase] on one code unit: A-Z, and U+00C0 to U+00DE but U+00D7. *)
Definition char_toLowerCase (c : ascii) : ascii :=
  if in_range 65 90 c || (in_range 192 222 c && negb (code c =? 215)%N)
  then ascii_of_N (code c + 32)
  else c.

Fixpoint string_map (f : ascii → ascii) (s : string) : string :=
  match s with
  | EmptyString => EmptyString
  | String c s' => String (f c) (string_map f s')
  end.

Fixpoint string_forallb (f : ascii → bool) (s : string) : bool :=
  match s with
  | EmptyString => true
  | String c s' => f c && string_forallb f s'
  end.

Definition toLowerCase (s : string) : string := string_map char_toLowerCase s.

(** [.replace(/[^\w\s]/g, ' ')] *)
Definition replace_punctuation (s : string) : string :=
  string_map (λ c, if is_word_char c || is_space_char c then c else " "%char) s.

Definition starts_with_space (s : string) : bool :=
  match s with
  | EmptyString => false
  | String c _ => is_space_char c
  end.

(** [.split(/\s+/)]: the pieces between the maximal runs of white space.
    A run at the start or at the end leaves an empty piece there, and the
    empty string splits into one empty piece. *)
Fixpoint split_whitespace (s : string) : list string :=
  match s with
  | EmptyString => [EmptyString]
  | String c s' =>
      let pieces := split_whitespace s' in
      if is_space_char c then
        if starts_with_space s' then pieces else EmptyString :: pieces
      else
        match pieces with
        | piece :: rest => String c piece :: rest
        | [] => [String c EmptyString]
        end
  end.

(** [s.includes(k)] *)
Fixpoint includes (s k : string) : bool :=
  String.prefix k s ||
  match s with
  | EmptyString => false
  | String _ s' => includes s' k
  end.

(** [/^\d+$/.test(s)] *)
Definition is_pure_number (s : string) : bool :=
  negb (String.eqb s EmptyString) && string_forallb is_digit s.

Definition newline : string := String "010"%char EmptyString.

End JsString.
Import JsString.

(** ** Arrays *)

Module JsArray.
Section Generic.
Context {A : Type}.

(** The clamping of a relative index in [Array.prototype.slice]. *)
Definition relative_index (len : nat) (i : Z) : nat :=
  if i <? 0 then Z.to_nat (Z.max (Z.of_nat len + i) 0)
  else Z.to_nat (Z.min i (Z.of_nat len)).

(** [l.slice(start)] *)
Definition slice_from (start : Z) (l : list A) : list A :=
  drop (relative_index (length l) start) l.

(** [l.slice(start, stop)] *)
Definition slice (start stop : Z) (l : list A) : list A :=
  let k := relative_index (length l) start in
  let final := relative_index (length l) stop in
  take (final - k) (drop k l).

(** [Array.prototype.sort] is stable and puts [a] before [b] when
    [comparefn a b] is negative.  For a consistent comparator every stable
    sort returns the same array, and insertion sort stands for all of
    them.  A comparator's result is kept by its sign; [Eq] also stands for
    NaN, which [sort] reads as [+0]. *)
Fixpoint sort_insert (comparefn : A → A → comparison) (x : A) (l : list A)
    : list A :=
  match l with
  | [] => [x]
  | y :: l' =>
      match comparefn y x with
      | Gt => x :: y :: l'
      | _ => y :: sort_insert comparefn x l'
      end
  end.

Definition sort (comparefn : A → A → comparison) (l : list A) : list A :=
  foldl (λ sorted x, sort_insert comparefn x sorted) [] l.

End Generic.

(** The sign of a numeric comparator result. *)
Definition sign_Z (d : Z) : comparison := d ?= 0.
Definition sign_Q (d : Q) : comparison := (d ?= 0)%Q.

End JsArray.

(** ** Numbers that may be infinite or NaN *)

Module JsNumber.

Inductive number :=
  | NaN
  | Infinity (negative : bool)
  | Finite (q : Q).

Section Rounded.
Variable rnd : Q → Q.

(** [a / b] for two integers. *)
Definition div (a b : Z) : number :=
  if b =? 0 then (if a =? 0 then NaN else Infinity (a <? 0))
  else Finite (rnd (inject_Z a / inject_Z b)).

(** [x * k] for an integer [k]. *)
Definition mul (x : number) (k : Z) : number :=
  match x with
  | NaN => NaN
  | Infinity s => if k =? 0 then NaN else Infinity (xorb s (k <? 0))
  | Finite q => Finite (rnd (q * inject_Z k))
  end.

End Rounded.

(** [x >= t]; a comparison with NaN is false. *)
Definition ge (x t : number) : bool :=
  match x, t with
  | NaN, _ | _, NaN => false
  | Finite a, Finite b => Qle_bool b a
  | Infinity false, _ => true
  | Infinity true, Infinity true => true
  | Infinity true, _ => false
  | Finite _, Infinity s => s
  end.

(** The numbers that count as false: NaN and zero. *)
Definition falsy (x : number) : bool :=
  match x with
  | NaN => true
  | Infinity _ => false
  | Finite q => Qeq_bool q 0
  end.

(** The sign of [b - a]; NaN counts as [+0]. *)
Definition minus_sign (b a : number) : comparison :=
  match b, a with
  | Finite y, Finite x => JsArray.sign_Q (y - x)
  | Infinity s, Finite _ => if s then Lt else Gt
  | Finite _, Infinity s => if s then Gt else Lt
  | Infinity s, Infinity s' => if eqb s s' then Eq else if s then Lt else Gt
  | _, _ => Eq
  end.

(** [x.toFixed(1)]: the integer [n] nearest to [10 * |x|], the larger one
    on a tie, written with a point before its last digit.  (From 1e21 on
    [toFixed] writes exponent notation instead; a percentage of the
    characters of an array of strings stays below.) *)
Definition toFixed1 (x : number) : string :=
  match x with
  | NaN => "NaN"
  | Infinity s => if s then "-Infinity" else "Infinity"
  | Finite q =>
      let n := Qfloor (Qabs q * 10 + (1 # 2))%Q in
      (if Qlt_le_dec q 0 then "-" else "")
      ++ pretty (n / 10)%Z ++ "." ++ pretty (n mod 10)%Z
  end%string.

End JsNumber.

(** ** Plain objects used as maps *)

(** [extractKeywords] counts in a plain object [{}], which inherits from
    [Object.prototype]: reading a key that is not an own property falls
    through to the prototype. *)
Module JsObject.

(** What a key of the frequency object can hold: a number; a built-in
    function or object seen through the prototype, kept by the text it
    converts to; or the text that [+ 1] makes of such a built-in.  That
    text starts with [function] or [[object], so as a number it is NaN. *)
Inductive value :=
  | Number (n : Z)
  | Builtin (text : string)
  | Text (s : string).

(** An object: its own properties in the order of their creation. *)
Abbreviation object := (list (string * value)) (only parsing).

Definition native (name : string) : value :=
  Builtin ("function " ++ name ++ "() { [native code] }").

Definition Object_prototype : object :=
  [ ("constructor", native "Object");
    ("__defineGetter__", native "__defineGetter__");
    ("__defineSetter__", native "__defineSetter__");
    ("hasOwnProperty", native "hasOwnProperty");
    ("__lookupGetter__", native "__lookupGetter__");
    ("__lookupSetter__", native "__lookupSetter__");
    ("isPrototypeOf", native "isPrototypeOf");
    ("propertyIsEnumerable", native "propertyIsEnumerable");
    ("toString", native "toString");
    ("valueOf", native "valueOf");
    ("__proto__", Builtin "[object Object]");
    ("toLocaleString", native "toLocaleString") ]%string.

Fixpoint own (o : object) (key : string) : option value :=
  match o with
  | [] => None
  | (k, v) :: o' => if String.eqb k key then Some v else own o' key
  end.

(** [o[key]]; [None] is [undefined]. *)
Definition get (o : object) (key : string) : option value :=
  match own o key with
  | Some v => Some v
  | None => own Object_prototype key
  end.

(** [v || 0] *)
Definition or_zero (v : option value) : value :=
  match v with
  | None => Number 0
  | Some (Number n) => if n =? 0 then Number 0 else Number n
  | Some (Builtin t) => Builtin t
  | Some (Text s) => if String.eqb s EmptyString then Number 0 else Text s
  end.

(** [v + 1]: addition on a number, concatenation otherwise. *)
Definition plus_one (v : value) : value :=
  match v with
  | Number n => Number (n + 1)
  | Builtin t => Text (t ++ "1")
  | Text s => Text (s ++ "1")
  end.

Fixpoint update (o : object) (key : string) (v : value) : object :=
  match o with
  | [] => [(key, v)]
  | (k, v') :: o' =>
      if String.eqb k key then (k, v) :: o' else (k, v') :: update o' key v
  end.

(** [o[key] = v] for a number or a string [v].  The [__proto__] setter
    ignores a value that is no object; any other key becomes, or stays, an
    own property, a new one after those already there. *)
Definition set (o : object) (key : string) (v : value) : object :=
  if String.eqb key "__proto__" then o else update o key v.

Fixpoint digits_value (acc : N) (s : string) : N :=
  match s with
  | EmptyString => acc
  | String c s' => digits_value (10 * acc + (code c - 48))%N s'
  end.

(** A canonical array index: a decimal numeral below [2^32 - 1]. *)
Definition is_array_index (key : string) : bool :=
  is_pure_number key
  && (String.eqb key "0" || negb (String.prefix "0" key))
  && (String.length key <=? 10)%nat
  && (digits_value 0 key <? 4294967295)%N.

(** [Object.entries(o)]: the array-index keys in ascending order, then the
    other keys in the order of their creation. *)
Definition entries (o : object) : list (string * value) :=
  JsArray.sort
    (λ a b, (digits_value 0 a.1 ?= digits_value 0 b.1)%N)
    (filter (λ e, is_array_index e.1) o)
  ++ filter (λ e, negb (is_array_index e.1)) o.

(** The sign of [b - a]; NaN counts as [+0]. *)
Definition minus_sign (b a : value) : comparison :=
  match b, a with
  | Number y, Number x => JsArray.sign_Z (y - x)
  | _, _ => Eq
  end.

End JsObject.

(** ** Data model *)

Inductive Role := user | assistant.

Record Message := {
  role : Role;
  content : string;
  timestamp : Z;
}.

Record Config := {
  MAX_CONTEXT_CHARS : Z;
  MIN_RECENT_MESSAGES : Z;
  MAX_RELEVANT_OLDER : Z;
  MIN_KEYWORD_LENGTH : Z;
  RELEVANCE_THRESHOLD : JsNumber.number;
}.

(** What the module writes to the console, one constructor for each
    [console.log] in the code. *)
Inductive LogLine :=
  | KeywordsExtracted (keywords : list string)
  | SelectedOlder (count : nat)
  | TruncatedAt (count : nat) (totalChars : Z)
  | ContextSize (included total : nat).

(** The module state: the [CONFIG] object and the console. *)
Record World := {
  CONFIG : Config;
  console : list LogLine;
}.

Definition M (A : Type) : Type := World → A * World.

Definition ret {A} (a : A) : M A := λ w, (a, w).

Definition bind {A B} (m : M A) (f : A → M B) : M B :=
  λ w, let (a, w') := m w in f a w'.

Notation "'let*' x ':=' m 'in' k" := (bind m (λ x, k))
  (at level 10, x name, m at level 100, k at level 200).
Notation "'do' m 'then' k" := (bind m (λ _, k))
  (at level 10, m at level 100, k at level 200).

Definition read_config {A} (field : Config → A) : M A :=
  λ w, (field (CONFIG w), w).

Definition console_log (line : LogLine) : M unit :=
  λ w, (tt, {| CONFIG := CONFIG w; console := console w ++ [line] |}).

Definition value_of {A} (m : M A) (w : World) : A := (m w).1.
Definition world_after {A} (m : M A) (w : World) : World := (m w).2.

(** ** Configuration *)

Section Environment.

(** [process.env], where a variable that is not set reads [undefined],
    and the two built-in parsers.  [parseInt] gives an integer or NaN
    ([None]); the integer is kept exact, where JavaScript would round a
    long one to a double. *)
Variable env : gmap string string.
Variable parseInt : option string → option Z.
Variable parseFloat : option string → JsNumber.number.

(** [parsed || fallback] *)
Definition or_default_Z (parsed : option Z) (fallback : Z) : Z :=
  match parsed with
  | Some n => if n =? 0 then fallback else n
  | None => fallback
  end.

Definition or_default (parsed fallback : JsNumber.number) : JsNumber.number :=
  if JsNumber.falsy parsed then fallback else parsed.

Definition createConfig : Config :=
  {| MAX_CONTEXT_CHARS :=
       or_default_Z (parseInt (env !! "MAX_CONTEXT_CHARS"%string)) 4000;
     MIN_RECENT_MESSAGES :=
       or_default_Z (parseInt (env !! "MIN_RECENT_MESSAGES"%string)) 3;
     MAX_RELEVANT_OLDER :=
       or_default_Z (parseInt (env !! "MAX_RELEVANT_OLDER"%string)) 3;
     MIN_KEYWORD_LENGTH :=
       or_default_Z (parseInt (env !! "MIN_KEYWORD_LENGTH"%string)) 4;
     RELEVANCE_THRESHOLD :=
       or_default (parseFloat (env !! "RELEVANCE_THRESHOLD"%string))
         (JsNumber.Finite (3 # 10)) |}.

End Environment.

(** Reference models of the two built-in parsers, for the examples. *)
Module Builtins.

Fixpoint trim_start (s : string) : string :=
  match s with
  | EmptyString => EmptyString
  | String c s' => if is_space_char c then trim_start s' else s
  end.

(** An optional sign: whether it is [-], and what follows it. *)
Definition read_sign (s : string) : bool * string :=
  match s with
  | String "-"%char s' => (true, s')
  | String "+"%char s' => (false, s')
  | _ => (false, s)
  end.

Definition digit_in (radix : N) (c : ascii) : option N :=
  let d :=
    if is_digit c then Some (code c - 48)%N
    else if in_range 97 122 c then Some (code c - 87)%N
    else if in_range 65 90 c then Some (code c - 55)%N
    else None in
  match d with
  | Some n => if (n <? radix)%N then Some n else None
  | None => None
  end.

(** The value of the longest prefix of digits, and how many there are. *)
Fixpoint read_digits (radix : N) (s : string) (acc : N) (count : nat)
    : N * nat * string :=
  match s with
  | EmptyString => (acc, count, EmptyString)
  | String c s' =>
      match digit_in radix c with
      | Some d => read_digits radix s' (radix * acc + d)%N (S count)
      | None => (acc, count, s)
      end
  end.

(** [parseInt(string)], with no radix argument. *)
Definition parseInt (input : option string) : option Z :=
  match input with
  | None => None
  | Some s =>
      let '(negative, s) := read_sign (trim_start s) in
      let '(radix, s) :=
        if String.prefix "0x" s || String.prefix "0X" s
        then (16%N, String.substring 2 (String.length s - 2) s)
        else (10%N, s) in
      let '(n, count, _) := read_digits radix s 0 0 in
      if (count =? 0)%nat then None
      else Some (if negative then - Z.of_N n else Z.of_N n)
  end.

(** The exponent part, [e] with an optional sign and digits, if there is
    one. *)
Definition read_exponent (s : string) : Z :=
  match s with
  | String c s' =>
      if (code c =? 101)%N || (code c =? 69)%N then
        let '(negative, s'') := read_sign s' in
        let '(e, count, _) := read_digits 10 s'' 0 0 in
        if (count =? 0)%nat then 0
        else if negative then - Z.of_N e else Z.of_N e
      else 0
  | EmptyString => 0
  end.

(** [parseFloat(string)]; the decimal value read is rounded by [rnd]. *)
Definition parseFloat (rnd : Q → Q) (input : option string) : JsNumber.number :=
  match input with
  | None => JsNumber.NaN
  | Some s =>
      let '(negative, s) := read_sign (trim_start s) in
      if String.prefix "Infinity" s then JsNumber.Infinity negative
      else
        let '(int_part, int_count, s1) := read_digits 10 s 0 0 in
        let '(frac_part, frac_count, s2) :=
          match s1 with
          | String "."%char s' => read_digits 10 s' 0 0
          | _ => (0%N, 0%nat, s1)
          end in
        if (int_count + frac_count =? 0)%nat then JsNumber.NaN
        else
          let scale := 10 ^ Z.of_nat frac_count in
          let mantissa := Z.of_N int_part * scale + Z.of_N frac_part in
          let value :=
            ((if negative then - inject_Z mantissa else inject_Z mantissa)
             / inject_Z scale * (10 # 1) ^ read_exponent s2)%Q in
          JsNumber.Finite (rnd value)
  end.

End Builtins.

(** ** The keyword extractor *)

Definition stopWords : gset string :=
  list_to_set
    [ "the"; "be"; "to"; "of"; "and"; "a"; "in"; "that"; "have"; "i";
      "it"; "for"; "not"; "on"; "with"; "he"; "as"; "you"; "do"; "at";
      "this"; "but"; "his"; "by"; "from"; "they"; "we"; "say"; "her"; "she";
      "or"; "an"; "will"; "my"; "one"; "all"; "would"; "there"; "their";
      "what"; "so"; "up"; "out"; "if"; "about"; "who"; "get"; "which"; "go";
      "me"; "when"; "make"; "can"; "like"; "time"; "no"; "just"; "him"; "know";
      "take"; "people"; "into"; "year"; "your"; "good"; "some"; "could"; "them";
      "see"; "other"; "than"; "then"; "now"; "look"; "only"; "come"; "its"; "over";
      "think"; "also"; "back"; "after"; "use"; "two"; "how"; "our"; "work";
      "first"; "well"; "way"; "even"; "new"; "want"; "because"; "any"; "these";
      "give"; "day"; "most"; "us"; "is"; "are"; "was"; "were"; "been"; "has";
      "had"; "does"; "did"; "am"; "please"; "thanks"; "thank"; "hello"; "hi";
      "hey"; "okay"; "yes"; "no" ]%string.

(** [word.length >= CONFIG.MIN_KEYWORD_LENGTH] *)
Definition long_enough (cfg : Config) (word : string) : bool :=
  bool_decide (MIN_KEYWORD_LENGTH cfg ≤ Z.of_nat (String.length word)).

(** The callback of the [filter] in [extractKeywords]. *)
Definition is_keyword (cfg : Config) (word : string) : bool :=
  long_enough cfg word
  && negb (bool_decide (word ∈ stopWords))
  && negb (is_pure_number word).

(** [text.toLowerCase().replace(/[^\w\s]/g, ' ').split(/\s+/)] *)
Definition tokens (text : string) : list string :=
  split_whitespace (replace_punctuation (toLowerCase text)).

(** [wordFreq[word] = (wordFreq[word] || 0) + 1] *)
Definition count_word (wordFreq : JsObject.object) (word : string)
    : JsObject.object :=
  JsObject.set wordFreq word
    (JsObject.plus_one (JsObject.or_zero (JsObject.get wordFreq word))).

Definition extractKeywords (cfg : Config) (text : string) : list string :=
  let words := filter (λ word, is_keyword cfg word) (tokens text) in
  let wordFreq := foldl count_word [] words in
  (JsArray.slice 0 10
     (JsArray.sort (λ a b, JsObject.minus_sign b.2 a.2)
        (JsObject.entries wordFreq))).*1.

(** ** The relevance scorer *)

(** The test inside [keywords.forEach]. *)
Definition keyword_matches (messageWords : gset string)
    (messageText keyword : string) : bool :=
  bool_decide (keyword ∈ messageWords) || includes messageText keyword.

Section Pipeline.
Variable rnd : Q → Q.

Definition calculateRelevance (cfg : Config) (message : Message)
    (keywords : list string) : JsNumber.number :=
  if (length keywords =? 0)%nat then JsNumber.Finite 0
  else
    let messageText := toLowerCase (content message) in
    let messageWords : gset string :=
      list_to_set
        (filter (λ w, long_enough cfg w)
           (split_whitespace (replace_punctuation messageText))) in
    let matches :=
      foldl (λ matches keyword,
               if keyword_matches messageWords messageText keyword
               then matches + 1 else matches)
            0 keywords in
    JsNumber.div rnd matches (Z.of_nat (length keywords)).

(** ** The selector *)

Record Scored := {
  message : Message;
  score : JsNumber.number;
}.

Definition selectRelevantMessages (conversationHistory : list Message)
    (currentPrompt : string) : M (list Message) :=
  if (length conversationHistory =? 0)%nat then ret []
  else
    let* cfg := read_config id in
    let keywords := extractKeywords cfg currentPrompt in
    do console_log (KeywordsExtracted keywords) then
    let recentMessages :=
      JsArray.slice_from (- MIN_RECENT_MESSAGES cfg) conversationHistory in
    let olderMessages :=
      JsArray.slice 0 (- MIN_RECENT_MESSAGES cfg) conversationHistory in
    if (length olderMessages =? 0)%nat then ret recentMessages
    else
      let scoredMessages :=
        (λ msg, {| message := msg;
                   score := calculateRelevance cfg msg keywords |})
        <$> olderMessages in
      let relevantOlder :=
        message <$>
          JsArray.slice 0 (MAX_RELEVANT_OLDER cfg)
            (JsArray.sort (λ a b, JsNumber.minus_sign (score b) (score a))
               (filter
                  (λ item, JsNumber.ge (score item) (RELEVANCE_THRESHOLD cfg))
                  scoredMessages)) in
      do console_log (SelectedOlder (length relevantOlder)) then
      let combined :=
        JsArray.sort (λ a b, JsArray.sign_Z (timestamp a - timestamp b))
          (relevantOlder ++ recentMessages) in
      ret combined.

(** ** The budgeter *)

(** One message's cost: [msg.content.length + 30]. *)
Definition msgSize (msg : Message) : Z :=
  Z.of_nat (String.length (content msg)) + 30.

(** The [for] loop of [truncateToCharLimit].  [n] is [i + 1]: the loop
    ends at [n = 0] and otherwise reads [messages[i]], which is there
    because [i] is below the length. *)
Fixpoint truncate_loop (messages : list Message) (maxChars : Z)
    (n : nat) (totalChars : Z) (result : list Message) : M (list Message) :=
  match n with
  | O => ret result
  | S i =>
      match messages !! i with
      | None => ret result
      | Some msg =>
          if bool_decide (totalChars + msgSize msg > maxChars)
             && bool_decide (0 < length result)%nat
          then
            do console_log (TruncatedAt (length result) totalChars) then
            ret result
          else
            truncate_loop messages maxChars i
              (totalChars + msgSize msg) (msg :: result)
      end
  end.

Definition truncateToCharLimit (messages : list Message) (maxChars : Z)
    : M (list Message) :=
  truncate_loop messages maxChars (length messages) 0 [].

(** ** The formatter *)

(** The two markers, U+2192 and U+2022, in their UTF-8 bytes. *)
Definition arrow : string :=
  String "226"%char (String "134"%char (String "146"%char EmptyString)).
Definition bullet : string :=
  String "226"%char (String "128"%char (String "162"%char EmptyString)).

(** The body of [truncatedMessages.forEach]: one line of the context. *)
Definition context_line (cfg : Config) (count index : nat) (msg : Message)
    : string :=
  let roleLabel :=
    match role msg with user => "User" | assistant => "Assistant" end in
  let isRecent :=
    bool_decide (Z.of_nat count - MIN_RECENT_MESSAGES cfg ≤ Z.of_nat index) in
  let prefix := if isRecent then arrow else bullet in
  (prefix ++ " " ++ roleLabel ++ ": " ++ content msg ++ newline)%string.

Definition buildOptimizedContext (conversationHistory : list Message)
    (currentPrompt : string) : M string :=
  let* relevantMessages :=
    selectRelevantMessages conversationHistory currentPrompt in
  let* maxChars := read_config MAX_CONTEXT_CHARS in
  let* truncatedMessages := truncateToCharLimit relevantMessages maxChars in
  do console_log
       (ContextSize (length truncatedMessages) (length conversationHistory)) then
  let* cfg := read_config id in
  ret (if (0 <? length truncatedMessages)%nat then
         foldl String.append
           ("Conversation context:" ++ newline ++ newline)%string
           (imap (context_line cfg (length truncatedMessages)) truncatedMessages)
         ++ newline ++ "---" ++ newline ++ newline
       else "")%string.

(** ** The statistics accessor *)

Record Stats := {
  totalMessages : nat;
  relevantMessages : nat;
  includedMessages : nat;
  totalChars : Z;
  utilizationPercent : string;
}.

Definition getContextStats (conversationHistory : list Message)
    (currentPrompt : string) : M Stats :=
  let* relevant := selectRelevantMessages conversationHistory currentPrompt in
  let* maxChars := read_config MAX_CONTEXT_CHARS in
  let* truncated := truncateToCharLimit relevant maxChars in
  let total :=
    foldl (λ sum msg, sum + Z.of_nat (String.length (content msg))) 0 truncated in
  let* maxChars' := read_config MAX_CONTEXT_CHARS in
  ret {| totalMessages := length conversationHistory;
         relevantMessages := length relevant;
         includedMessages := length truncated;
         totalChars := total;
         utilizationPercent :=
           JsNumber.toFixed1
             (JsNumber.mul rnd (JsNumber.div rnd total maxChars') 100) |}.

End Pipeline.

(** ** The LLM providers *)

(** What a call gives: the value it returns or the exception it throws.
    A [TypeError] comes from the engine; its message is not modelled. *)
Inductive Exception :=
  | Error (message : string)
  | TypeError.

Inductive Outcome (A : Type) :=
  | Returned (a : A)
  | Thrown (e : Exception).
Arguments Returned {A} a.
Arguments Thrown {A} e.

(** [v || fallback] and [!v] for a string that may be [undefined]. *)
Definition or_text (v : option string) (fallback : string) : string :=
  match v with
  | Some s => if String.eqb s EmptyString then fallback else s
  | None => fallback
  end.

Definition falsy_text (v : option string) : bool :=
  match v with
  | Some s => String.eqb s EmptyString
  | None => true
  end.

(** [v || fallback] for a number that may be [undefined]. *)
Definition or_number (v : option JsNumber.number) (fallback : JsNumber.number)
    : JsNumber.number :=
  match v with
  | Some x => or_default x fallback
  | None => fallback
  end.

(** The properties a provider configuration, and a provider, can have;
    [None] is [undefined]. *)
Record Properties := {
  host : option string;
  apiKey : option string;
  model : option string;
  maxTokens : option Z;
  temperature : option JsNumber.number;
  contextWindow : option Z;
}.

Inductive ProviderClass := OllamaProvider | ClaudeProvider | OpenAIProvider.

(** An instance: its class, [this.config], and the properties its
    constructor sets on [this]. *)
Record Provider := {
  provider_class : ProviderClass;
  config : Properties;
  this : Properties;
}.

(** [new ProviderClass(config)]: the base constructor keeps the
    configuration, the constructor of the class sets its properties, each
    with its default. *)
Definition new (class : ProviderClass) (config : Properties) : Provider :=
  {| provider_class := class;
     config := config;
     this :=
       match class with
       | OllamaProvider =>
           {| host := Some (or_text (host config) "http://localhost:11434");
              apiKey := None;
              model := Some (or_text (model config) "llama3.2");
              maxTokens := None;
              temperature :=
                Some (or_number (temperature config) (JsNumber.Finite (7 # 10)));
              contextWindow := Some (or_default_Z (contextWindow config) 4096) |}
       | ClaudeProvider =>
           {| host := None;
              apiKey := apiKey config;
              model := Some (or_text (model config) "claude-sonnet-4-20250514");
              maxTokens := Some (or_default_Z (maxTokens config) 1024);
              temperature :=
                Some (or_number (temperature config) (JsNumber.Finite (7 # 10)));
              contextWindow := None |}
       | OpenAIProvider =>
           {| host := None;
              apiKey := apiKey config;
              model := Some (or_text (model config) "gpt-4o-mini");
              maxTokens := Some (or_default_Z (maxTokens config) 1024);
              temperature :=
                Some (or_number (temperature config) (JsNumber.Finite (7 # 10)));
              contextWindow := None |}
       end |}.

Definition validateConfig (provider : Provider) : Outcome bool :=
  match provider_class provider with
  | OllamaProvider =>
      if falsy_text (model (this provider))
      then Thrown (Error "Ollama: model is required") else Returned true
  | ClaudeProvider =>
      if falsy_text (apiKey (this provider))
      then Thrown (Error "Claude: API key is required") else Returned true
  | OpenAIProvider =>
      if falsy_text (apiKey (this provider))
      then Thrown (Error "OpenAI: API key is required") else Returned true
  end.

(** [getName()]: [this.constructor.name]. *)
Definition getName (provider : Provider) : string :=
  match provider_class provider with
  | OllamaProvider => "OllamaProvider"
  | ClaudeProvider => "ClaudeProvider"
  | OpenAIProvider => "OpenAIProvider"
  end.

(** The own properties of the [PROVIDERS] object. *)
Definition PROVIDERS : list (string * ProviderClass) :=
  [ ("ollama", OllamaProvider); ("claude", ClaudeProvider);
    ("openai", OpenAIProvider) ]%string.

Fixpoint own_property {V} (o : list (string * V)) (key : string) : option V :=
  match o with
  | [] => None
  | (k, v) :: o' => if String.eqb k key then Some v else own_property o' key
  end.

(** [Object.keys(PROVIDERS)] *)
Definition getAvailableProviders : list string := PROVIDERS.*1.

Fixpoint join (separator : string) (l : list string) : string :=
  match l with
  | [] => EmptyString
  | [s] => s
  | s :: l' => s ++ separator ++ join separator l'
  end.

(** The line [createProvider] writes to the console. *)
Inductive ProviderLog := InitializedProvider (providerName : string).

(** [createProvider(providerName, config)].  [PROVIDERS] is a plain
    object: a name it has no own property for is looked up in
    [Object.prototype], and what is found there is truthy but no provider
    class, so that constructing and validating ends in a [TypeError]. *)
Definition createProvider (providerName : string) (config : Properties)
    : Outcome Provider * list ProviderLog :=
  match own_property PROVIDERS (toLowerCase providerName) with
  | Some ProviderClass =>
      let provider := new ProviderClass config in
      match validateConfig provider with
      | Thrown e => (Thrown e, [])
      | Returned _ => (Returned provider, [InitializedProvider providerName])
      end
  | None =>
      match JsObject.own JsObject.Object_prototype (toLowerCase providerName) with
      | Some _ => (Thrown TypeError, [])
      | None =>
          (Thrown (Error ("Unknown provider: " ++ providerName ++ ". Available: "
                          ++ join ", " getAvailableProviders)), [])
      end
  end.

Section Handler.
Variable env : gmap string string.
Variable parseInt : option string → option Z.
Variable parseFloat : option string → JsNumber.number.

(** [BaseHandler.initializeLLMProvider(env)] *)
Definition initializeLLMProvider : Outcome Provider * list ProviderLog :=
  let providerName := or_text (env !! "LLM_PROVIDER"%string) "ollama" in
  let name := toLowerCase providerName in
  if String.eqb name "ollama" then
    createProvider providerName
      {| host := Some (or_text (env !! "OLLAMA_HOST"%string) "http://localhost:11434");
         apiKey := None;
         model := Some (or_text (env !! "OLLAMA_MODEL"%string) "llama3.2");
         maxTokens := None;
         temperature :=
           Some (or_default (parseFloat (env !! "OLLAMA_TEMPERATURE"%string))
                   (JsNumber.Finite (7 # 10)));
         contextWindow :=
           Some (or_default_Z (parseInt (env !! "OLLAMA_CONTEXT_WINDOW"%string)) 4096) |}
  else if String.eqb name "claude" then
    createProvider providerName
      {| host := None;
         apiKey := Some (or_text (env !! "CLAUDE_API_KEY"%string) EmptyString);
         model := Some (or_text (env !! "CLAUDE_MODEL"%string) "claude-3-sonnet-20240229");
         maxTokens :=
           Some (or_default_Z (parseInt (env !! "CLAUDE_MAX_TOKENS"%string)) 1024);
         temperature :=
           Some (or_default (parseFloat (env !! "CLAUDE_TEMPERATURE"%string))
                   (JsNumber.Finite (7 # 10)));
         contextWindow := None |}
  else if String.eqb name "openai" then
    createProvider providerName
      {| host := None;
         apiKey := Some (or_text (env !! "OPENAI_API_KEY"%string) EmptyString);
         model := Some (or_text (env !! "OPENAI_MODEL"%string) "gpt-4o-mini");
         maxTokens :=
           Some (or_default_Z (parseInt (env !! "OPENAI_MAX_TOKENS"%string)) 1024);
         temperature :=
           Some (or_default (parseFloat (env !! "OPENAI_TEMPERATURE"%string))
                   (JsNumber.Finite (7 # 10)));
         contextWindow := None |}
  else (Thrown (Error ("Unknown provider: " ++ providerName)), []).

End Handler.

(** [this.llmProvider.config.model || this.llmProvider.model], the model
    that [getHomeData] and [handleAskLogic] report. *)
Definition reported_model (provider : Provider) : option string :=
  if falsy_text (model (config provider)) then model (this provider)
  else model (config provider).

(** ** The conversation store *)

(** What the store writes to the console. *)
Inductive StoreLog := ErrorGettingHistory (error : string).

Section Store.

(** [db.statements.getMessages.all(userId, channelId, limit)]: the rows the
    query selects, or the error that it, or [getDb], throws. *)
Variable getMessages_all : string → string → Z → list Message + string.

(** [getHistory(userId, channelId, limit = 10)]; no [limit] is [None]. *)
Definition getHistory (userId channelId : string) (limit : option Z)
    : list Message * list StoreLog :=
  match getMessages_all userId channelId (default 10 limit) with
  | inl messages => (reverse messages, [])
  | inr error => ([], [ErrorGettingHistory error])
  end.

(** [getExtendedHistory(userId, channelId, limit = 50)] *)
Definition getExtendedHistory (userId channelId : string) (limit : option Z)
    : list Message * list StoreLog :=
  getHistory userId channelId (Some (default 50 limit)).

End Store.

(** ** Notions the properties are stated with *)

(** A rounding of the rationals such as IEEE-754 round-to-nearest keeps
    the order, and is exact at the numbers a double represents. *)
Definition monotone (rnd : Q → Q) : Prop :=
  ∀ x y : Q, (x <= y)%Q → (rnd x <= rnd y)%Q.

Definition exact_at (rnd : Q → Q) (x : Q) : Prop := (rnd x == x)%Q.

(** A computation that reads [CONFIG] and writes to the console, and does
    nothing else to the module state: under a given [CONFIG] it returns
    one value and appends one sequence of lines, whatever the console
    held before. *)
Definition console_only {A} (m : M A) : Prop :=
  ∀ cfg, ∃ a lines, ∀ c,
    m {| CONFIG := cfg; console := c |}
    = (a, {| CONFIG := cfg; console := c ++ lines |}).

(** The order a comparator induces: [a] may stand before [b]. *)
Definition may_precede {A} (comparefn : A → A → comparison) (a b : A) : Prop :=
  comparefn a b ≠ Gt.

(** Descending order of a key, ties in the order [before], and the
    comparator that sorts by descending [key]. *)
Definition descending {A} (key : A → Z) (before : relation A) (a b : A) : Prop :=
  key b < key a ∨ (key a = key b ∧ before a b).

Definition by_descending {A} (key : A → Z) (a b : A) : comparison :=
  JsArray.sign_Z (key b - key a).

(** The cost the budgeter charges for a sequence of messages, and their
    characters without the overhead. *)
Definition cost (messages : list Message) : Z :=
  foldr (λ msg acc, msgSize msg + acc) 0 messages.

Definition characters (messages : list Message) : Z :=
  foldr (λ msg acc, Z.of_nat (String.length (content msg)) + acc) 0 messages.

(** Chronological order, and the comparator of the selector's last [sort]. *)
Definition chronological (messages : list Message) : Prop :=
  Sorted (λ a b, timestamp a ≤ timestamp b) messages.

Definition by_timestamp (a b : Message) : comparison :=
  JsArray.sign_Z (timestamp a - timestamp b).

(** The last [n] entries of a sequence, all of it when it is shorter. *)
Definition last_entries {A} (n : nat) (l : list A) : list A :=
  drop (length l - n) l.

(** A keyword matches a message when it is one of the message's words or
    occurs in its lowercased text: the test the scorer applies. *)
Definition matches_message (cfg : Config) (message : Message) (keyword : string)
    : bool :=
  let messageText := toLowerCase (content message) in
  let messageWords : gset string :=
    list_to_set
      (filter (λ w, long_enough cfg w)
         (split_whitespace (replace_punctuation messageText))) in
  keyword_matches messageWords messageText keyword.

Definition matching_keywords (cfg : Config) (message : Message)
    (keywords : list string) : list string :=
  filter (λ keyword, matches_message cfg message keyword) keywords.

(** A non-negative number of tenths written with one decimal place. *)
Definition tenths (n : Z) : string :=
  (pretty (n / 10) ++ "." ++ pretty (n mod 10))%string.

(** The words of a text that pass the extractor's filter, in order. *)
Definition keyword_candidates (cfg : Config) (text : string) : list string :=
  filter (λ word, is_keyword cfg word) (tokens text).

(** How often a word occurs among some words. *)
Definition frequency (words : list string) (word : string) : nat :=
  length (filter (λ w, w = word) words).

(** The distinct words of a sequence in the order of their first
    occurrence, and the place of a word's first occurrence. *)
Fixpoint distinct (words : list string) : list string :=
  match words with
  | [] => []
  | w :: words' => w :: filter (λ v, v ≠ w) (distinct words')
  end.

Fixpoint first_index (words : list string) (word : string) : nat :=
  match words with
  | [] => 0
  | w :: words' => if decide (w = word) then 0 else S (first_index words' word)
  end.

(** Ranking by descending frequency, ties by first occurrence. *)
Definition ranks_before (words : list string) (a b : string) : Prop :=
  (frequency words b < frequency words a)%nat
  ∨ (frequency words a = frequency words b
     ∧ (first_index words a < first_index words b)%nat).

(** The words [Object.prototype] has a property for. *)
Definition inherited (word : string) : bool :=
  match JsObject.own JsObject.Object_prototype word with
  | Some _ => true
  | None => false
  end.

(** A code unit that [toLowerCase] leaves as it is. *)
Definition is_lower_char (c : ascii) : bool :=
  Ascii.eqb (char_toLowerCase c) c.

(** A message's score as a rational: what [calculateRelevance] computes. *)
Definition score_of (rnd : Q → Q) (cfg : Config) (keywords : list string)
    (msg : Message) : Q :=
  match keywords with
  | [] => 0%Q
  | _ =>
      rnd (inject_Z (Z.of_nat (length (matching_keywords cfg msg keywords)))
           / inject_Z (Z.of_nat (length keywords)))%Q
  end.

(** [score >= threshold] for a finite score. *)
Definition reaches (threshold : JsNumber.number) (q : Q) : bool :=
  JsNumber.ge (JsNumber.Finite q) threshold.

(** The comparator that sorts by descending score, the order it gives,
    and the entries with a given score. *)
Definition by_score {A} (f : A → Q) (a b : A) : comparison :=
  JsArray.sign_Q (f b - f a).

Definition ranked_above {A} (f : A → Q) (a b : A) : Prop := (f b <= f a)%Q.

Definition scoring {A} (f : A → Q) (q : Q) (a : A) : bool := Qeq_bool (f a) q.

(** Where the budgeter cuts: it returns the messages from [k] on.  They
    are within budget unless there is only one, and with the message
    before them they are not. *)
Definition stops_at (messages : list Message) (maxChars : Z) (k : nat) : Prop :=
  (k ≤ length messages)%nat
  ∧ (messages ≠ [] → (k < length messages)%nat)
  ∧ (cost (drop k messages) ≤ maxChars ∨ (length (drop k messages) ≤ 1)%nat)
  ∧ (∀ j, k = S j → cost (drop j messages) > maxChars).

(** What the budgeter logs when it returns [out] for [messages]. *)
Definition truncated_line (messages out : list Message) : list LogLine :=
  if decide (length out < length messages)%nat
  then [TruncatedAt (length out) (cost out)] else [].

(** A line of the context with a given marker. *)
Definition marked_line (marker : string) (msg : Message) : string :=
  (marker ++ " "
   ++ match role msg with user => "User" | assistant => "Assistant" end
   ++ ": " ++ content msg ++ newline)%string.

(** The order the query's [ORDER BY timestamp DESC] asks for. *)
Definition newest_first (rows : list Message) : Prop :=
  Sorted (λ a b, timestamp b ≤ timestamp a) rows.

(** ** Concrete data for the examples *)

Module Examples.

(** The built-in defaults of [createConfig]. *)
Definition defaults : Config :=
  {| MAX_CONTEXT_CHARS := 4000;
     MIN_RECENT_MESSAGES := 3;
     MAX_RELEVANT_OLDER := 3;
     MIN_KEYWORD_LENGTH := 4;
     RELEVANCE_THRESHOLD := JsNumber.Finite (3 # 10) |}.

(** The defaults but for a relevance threshold of 0. *)
Definition threshold_zero : Config :=
  {| MAX_CONTEXT_CHARS := 4000;
     MIN_RECENT_MESSAGES := 3;
     MAX_RELEVANT_OLDER := 3;
     MIN_KEYWORD_LENGTH := 4;
     RELEVANCE_THRESHOLD := JsNumber.Finite 0 |}.

Definition start (cfg : Config) : World :=
  {| CONFIG := cfg; console := [] |}.

(** Arithmetic without rounding error. *)
Definition exact (q : Q) : Q := q.

Definition says (r : Role) (t : Z) (text : string) : Message :=
  {| role := r; content := text; timestamp := t |}.

(** An environment that asks for zeros. *)
Definition zeros : gmap string string :=
  {[ "MAX_CONTEXT_CHARS" := "0"; "MIN_RECENT_MESSAGES" := " 0x0";
     "MAX_RELEVANT_OLDER" := "none"; "RELEVANCE_THRESHOLD" := "0.0" ]}%string.

(** An environment with usable values. *)
Definition tuned : gmap string string :=
  {[ "MAX_CONTEXT_CHARS" := "2000"; "MIN_RECENT_MESSAGES" := "5 messages";
     "MIN_KEYWORD_LENGTH" := "-1"; "RELEVANCE_THRESHOLD" := "2.5e-1" ]}%string.

Definition pizza_history : list Message :=
  [ says user 1 "Any pizza recipes?";
    says assistant 2 "Try a Neapolitan dough.";
    says user 3 "How long to bake?";
    says assistant 4 "Ten minutes.";
    says user 5 "Thanks!" ]%string.

Definition out_of_order : list Message :=
  [ says user 2 "second"; says assistant 1 "first" ]%string.

(** Ten messages of forty characters each. *)
Definition forty : string := "0123456789012345678901234567890123456789".

Definition ten_messages : list Message :=
  (λ t, says user t forty) <$> [1; 2; 3; 4; 5; 6; 7; 8; 9; 10].

(** A store whose query answers with the pizza conversation, newest
    first. *)
Definition pizza_store (userId channelId : string) (limit : Z)
    : list Message + string :=
  inl (reverse pizza_history).

(** An environment that asks for Claude and has no API key. *)
Definition cloud : gmap string string :=
  {[ "LLM_PROVIDER" := "Claude"; "CLAUDE_MODEL" := "claude-sonnet-4-20250514" ]}%string.

(** The provider an empty environment gives. *)
Definition local_ollama : Provider :=
  new OllamaProvider
    {| host := Some "http://localhost:11434"%string;
       apiKey := None;
       model := Some "llama3.2"%string;
       maxTokens := None;
       temperature := Some (JsNumber.Finite (7 # 10));
       contextWindow := Some 4096 |}.

End Examples.
(** * Properties *)

(** ** The state monad *)

Lemma value_of_ret {A} (a : A) w : value_of (ret a) w = a.
Proof. reflexivity. Qed.

Lemma value_of_bind {A B} (m : M A) (k : A → M B) w :
  value_of (bind m k) w = value_of (k (value_of m w)) (world_after m w).
Proof. unfold value_of, world_after, bind. by destruct (m w). Qed.

Lemma world_after_bind {A B} (m : M A) (k : A → M B) w :
  world_after (bind m k) w = world_after (k (value_of m w)) (world_after m w).
Proof. unfold value_of, world_after, bind. by destruct (m w). Qed.

Lemma world_after_ret {A} (a : A) w : world_after (ret a) w = w.
Proof. reflexivity. Qed.

Lemma value_of_read_config {A} (field : Config → A) w :
  value_of (read_config field) w = field (CONFIG w).
Proof. reflexivity. Qed.

Lemma world_after_read_config {A} (field : Config → A) w :
  world_after (read_config field) w = w.
Proof. reflexivity. Qed.

Lemma world_after_console_log line w :
  world_after (console_log line) w
  = {| CONFIG := CONFIG w; console := console w ++ [line] |}.
Proof. reflexivity. Qed.

Ltac run_monad :=
  repeat first
    [ rewrite value_of_bind | rewrite world_after_bind
    | rewrite value_of_ret | rewrite world_after_ret
    | rewrite value_of_read_config | rewrite world_after_read_config
    | rewrite world_after_console_log ];
  cbn [CONFIG console id].

(** ** What the logging functions do to the module state *)

Lemma console_only_ret {A} (a : A) : console_only (ret a).
Proof. intros cfg. exists a, []. intros c. by rewrite app_nil_r. Qed.

Lemma console_only_read_config {A} (field : Config → A) :
  console_only (read_config field).
Proof.
  intros cfg. exists (field cfg), []. intros c.
  unfold read_config. cbn. by rewrite app_nil_r.
Qed.

Lemma console_only_console_log line : console_only (console_log line).
Proof. intros cfg. by exists tt, [line]. Qed.

Lemma console_only_bind {A B} (m : M A) (k : A → M B) :
  console_only m → (∀ a, console_only (k a)) → console_only (bind m k).
Proof.
  intros Hm Hk cfg.
  destruct (Hm cfg) as (a & lines1 & Ha).
  destruct (Hk a cfg) as (b & lines2 & Hb).
  exists b, (lines1 ++ lines2). intros c.
  unfold bind. rewrite Ha, Hb. by rewrite app_assoc.
Qed.

Lemma console_only_if {A} (b : bool) (m1 m2 : M A) :
  console_only m1 → console_only m2 → console_only (if b then m1 else m2).
Proof. by destruct b. Qed.

Create HintDb console_only.
#[local] Hint Resolve console_only_ret console_only_read_config
  console_only_console_log console_only_if : console_only.
#[local] Hint Extern 2 (console_only (bind _ _)) =>
  apply console_only_bind; [|intros ?] : console_only.

Lemma console_only_value {A} (m : M A) w1 w2 :
  console_only m → CONFIG w1 = CONFIG w2 → value_of m w1 = value_of m w2.
Proof.
  intros Hm Hcfg. destruct w1 as [cfg c1], w2 as [cfg' c2]. cbn in Hcfg. subst cfg'.
  destruct (Hm cfg) as (a & lines & Ha). unfold value_of. by rewrite !Ha.
Qed.

Lemma console_only_world {A} (m : M A) w :
  console_only m →
  CONFIG (world_after m w) = CONFIG w
  ∧ ∃ lines, console (world_after m w) = console w ++ lines.
Proof.
  intros Hm. destruct w as [cfg c].
  destruct (Hm cfg) as (a & lines & Ha). unfold world_after. rewrite Ha.
  split; [done|]. by exists lines.
Qed.

(** ** Arrays: [slice] and [sort] *)

Section ArrayFacts.
Context {A : Type}.
Implicit Types (l : list A) (comparefn : A → A → comparison).

Lemma slice_0 stop l :
  JsArray.slice 0 stop l = take (JsArray.relative_index (length l) stop) l.
Proof.
  unfold JsArray.slice.
  replace (JsArray.relative_index (length l) 0) with 0%nat
    by (unfold JsArray.relative_index; cbn; lia).
  by rewrite drop_0, Nat.sub_0_r.
Qed.

(** [l.slice(0, i)] and [l.slice(i)] split [l] in two, whatever [i] is. *)
Lemma slice_partition i l :
  JsArray.slice 0 i l ++ JsArray.slice_from i l = l.
Proof. rewrite slice_0. apply take_drop. Qed.

Lemma relative_index_le len i : (JsArray.relative_index len i ≤ len)%nat.
Proof. unfold JsArray.relative_index. destruct (i <? 0) eqn:?; lia. Qed.

(** A window of [n > 0] entries counted from the end.  ([-0] is [0]: it
    counts from the start.) *)
Lemma relative_index_neg len n :
  0 < n → JsArray.relative_index len (- n) = (len - Z.to_nat n)%nat.
Proof.
  unfold JsArray.relative_index. intros Hn.
  destruct (Z.ltb_spec (- n) 0); lia.
Qed.

Lemma sort_insert_perm comparefn x l :
  JsArray.sort_insert comparefn x l ≡ₚ x :: l.
Proof.
  induction l as [|y l IH]; [done|]. cbn.
  destruct (comparefn y x); [| |done]; rewrite IH; apply Permutation_swap.
Qed.

Lemma sort_foldl_perm comparefn acc l :
  foldl (λ sorted x, JsArray.sort_insert comparefn x sorted) acc l ≡ₚ acc ++ l.
Proof.
  revert acc. induction l as [|x l IH]; intros acc; cbn.
  - by rewrite app_nil_r.
  - rewrite IH, sort_insert_perm. apply Permutation_middle.
Qed.

Lemma sort_perm comparefn l : JsArray.sort comparefn l ≡ₚ l.
Proof. unfold JsArray.sort. by rewrite sort_foldl_perm. Qed.

Lemma sort_insert_sorted comparefn x l :
  (∀ a b, comparefn a b = Gt → comparefn b a ≠ Gt) →
  Sorted (may_precede comparefn) l →
  Sorted (may_precede comparefn) (JsArray.sort_insert comparefn x l).
Proof.
  intros Htotal. induction 1 as [|y l Hl IH Hhd]; cbn.
  - repeat constructor.
  - destruct (comparefn y x) eqn:Hyx.
    + constructor; [done|].
      destruct Hhd as [|z l Hyz]; cbn.
      * constructor. unfold may_precede. congruence.
      * destruct (comparefn z x); constructor; unfold may_precede; congruence.
    + constructor; [done|].
      destruct Hhd as [|z l Hyz]; cbn.
      * constructor. unfold may_precede. congruence.
      * destruct (comparefn z x); constructor; unfold may_precede; congruence.
    + constructor; [by constructor|]. constructor. by apply Htotal.
Qed.

Lemma sort_sorted comparefn l :
  (∀ a b, comparefn a b = Gt → comparefn b a ≠ Gt) →
  Sorted (may_precede comparefn) (JsArray.sort comparefn l).
Proof.
  intros Htotal. unfold JsArray.sort.
  assert (∀ acc, Sorted (may_precede comparefn) acc →
            Sorted (may_precede comparefn)
              (foldl (λ sorted x, JsArray.sort_insert comparefn x sorted) acc l)) as H.
  { induction l as [|x l IH]; intros acc Hacc; cbn; [done|].
    apply IH. by apply sort_insert_sorted. }
  apply H. constructor.
Qed.

Lemma sort_insert_last comparefn x l :
  Forall (λ y, may_precede comparefn y x) l →
  JsArray.sort_insert comparefn x l = l ++ [x].
Proof.
  induction 1 as [|y l Hy _ IH]; [done|]. cbn.
  unfold may_precede in Hy. rewrite IH. by destruct (comparefn y x).
Qed.

(** Sorting leaves alone an array that is already in order. *)
Lemma sort_sorted_id comparefn l :
  StronglySorted (may_precede comparefn) l → JsArray.sort comparefn l = l.
Proof.
  intros Hl. unfold JsArray.sort.
  assert (∀ acc, StronglySorted (may_precede comparefn) (acc ++ l) →
            foldl (λ sorted x, JsArray.sort_insert comparefn x sorted) acc l
            = acc ++ l) as H.
  { clear Hl. induction l as [|x l IH]; intros acc Hacc; cbn.
    - by rewrite app_nil_r.
    - rewrite sort_insert_last.
      + rewrite IH; rewrite <- app_assoc; done.
      + apply Forall_forall. intros y Hy.
        eapply StronglySorted_app_1_elem_of; [done|done|]. left. }
  by apply (H []).
Qed.
End ArrayFacts.

(** ** Sorted lists *)

Lemma Sorted_app_r {A} (R : relation A) (l1 l2 : list A) :
  Sorted R (l1 ++ l2) → Sorted R l2.
Proof.
  induction l1 as [|x l1 IH]; [done|].
  cbn. intros H. apply IH. by apply Sorted_inv in H as [? _].
Qed.

Lemma chronological_suffix l1 l2 :
  l1 `suffix_of` l2 → chronological l2 → chronological l1.
Proof. intros [k ->]. apply Sorted_app_r. Qed.

Lemma StronglySorted_sublist {A} (R : relation A) (l1 l2 : list A) :
  l1 `sublist_of` l2 → StronglySorted R l2 → StronglySorted R l1.
Proof.
  induction 1 as [|x l1 l2 Hsub IH|x l1 l2 Hsub IH]; intros Hsorted.
  - constructor.
  - apply StronglySorted_inv in Hsorted as [Hl2 Hx]. constructor; [by apply IH|].
    apply Forall_forall. intros y Hy.
    apply (proj1 (Forall_forall _ _) Hx). by eapply elem_of_sublist.
  - apply StronglySorted_inv in Hsorted as [Hl2 _]. by apply IH.
Qed.

Lemma StronglySorted_weaken {A} (R R' : relation A) (l : list A) :
  (∀ a b, a ∈ l → b ∈ l → R a b → R' a b) →
  StronglySorted R l → StronglySorted R' l.
Proof.
  intros HR Hsorted. induction Hsorted as [|x l Hl IH Hx]; constructor.
  - apply IH. intros a b Ha Hb. apply HR; by right.
  - apply Forall_forall. intros y Hy. apply HR; [left|by right|].
    by apply (proj1 (Forall_forall _ _) Hx).
Qed.

(** ** Configuration *)

Lemma or_default_Z_nonzero parsed fallback :
  fallback ≠ 0 → or_default_Z parsed fallback ≠ 0.
Proof.
  intros Hd. unfold or_default_Z. destruct parsed as [n|]; [|done].
  by destruct (Z.eqb_spec n 0).
Qed.

Lemma or_default_Z_replaced parsed fallback :
  parsed = None ∨ parsed = Some 0 → or_default_Z parsed fallback = fallback.
Proof. by intros [->| ->]. Qed.

Lemma or_default_Z_kept n fallback :
  n ≠ 0 → or_default_Z (Some n) fallback = n.
Proof. intros Hn. unfold or_default_Z. by destruct (Z.eqb_spec n 0). Qed.

Lemma or_default_truthy parsed fallback :
  JsNumber.falsy fallback = false → JsNumber.falsy (or_default parsed fallback) = false.
Proof. intros Hd. unfold or_default. by destruct (JsNumber.falsy parsed) eqn:?. Qed.

(** C10.  Whatever the environment holds and whatever the parsers make of
    it, no value of the configuration is zero (nor NaN): a variable that
    parses to 0 or does not parse gives the built-in default, and any
    other value is taken as parsed. *)
Theorem createConfig_nonzero (env : gmap string string)
    (parseInt : option string → option Z)
    (parseFloat : option string → JsNumber.number) :
  let cfg := createConfig env parseInt parseFloat in
  (MAX_CONTEXT_CHARS cfg ≠ 0
   ∧ MIN_RECENT_MESSAGES cfg ≠ 0
   ∧ MAX_RELEVANT_OLDER cfg ≠ 0
   ∧ MIN_KEYWORD_LENGTH cfg ≠ 0
   ∧ JsNumber.falsy (RELEVANCE_THRESHOLD cfg) = false)
  ∧ (∀ parsed, parsed = None ∨ parsed = Some 0 →
       (parseInt (env !! "MAX_CONTEXT_CHARS"%string) = parsed →
        MAX_CONTEXT_CHARS cfg = 4000)
       ∧ (parseInt (env !! "MIN_RECENT_MESSAGES"%string) = parsed →
          MIN_RECENT_MESSAGES cfg = 3)
       ∧ (parseInt (env !! "MAX_RELEVANT_OLDER"%string) = parsed →
          MAX_RELEVANT_OLDER cfg = 3)
       ∧ (parseInt (env !! "MIN_KEYWORD_LENGTH"%string) = parsed →
          MIN_KEYWORD_LENGTH cfg = 4))
  ∧ (JsNumber.falsy (parseFloat (env !! "RELEVANCE_THRESHOLD"%string)) = true →
     RELEVANCE_THRESHOLD cfg = JsNumber.Finite (3 # 10))
  ∧ (∀ n, n ≠ 0 →
       (parseInt (env !! "MAX_CONTEXT_CHARS"%string) = Some n →
        MAX_CONTEXT_CHARS cfg = n)
       ∧ (parseInt (env !! "MIN_RECENT_MESSAGES"%string) = Some n →
          MIN_RECENT_MESSAGES cfg = n)
       ∧ (parseInt (env !! "MAX_RELEVANT_OLDER"%string) = Some n →
          MAX_RELEVANT_OLDER cfg = n)
       ∧ (parseInt (env !! "MIN_KEYWORD_LENGTH"%string) = Some n →
          MIN_KEYWORD_LENGTH cfg = n)).
Proof.
  intros cfg. unfold cfg, createConfig. cbn.
  split; [|split; [|split]].
  - repeat split; try (by apply or_default_Z_nonzero).
    by apply or_default_truthy.
  - intros parsed Hparsed.
    repeat split; intros ->; by apply or_default_Z_replaced.
  - intros Hfalsy. unfold or_default. by rewrite Hfalsy.
  - intros n Hn. repeat split; intros ->; by apply or_default_Z_kept.
Qed.

Lemma createConfig_nonzero_witness :
  MAX_CONTEXT_CHARS
    (createConfig Examples.zeros Builtins.parseInt (Builtins.parseFloat Examples.exact))
  = 4000.
Proof.
  destruct (createConfig_nonzero Examples.zeros Builtins.parseInt
              (Builtins.parseFloat Examples.exact)) as (_ & Hreplaced & _).
  destruct (Hreplaced (Some 0)) as (Hmax & _); [by right|].
  apply Hmax. vm_compute. reflexivity.
Defined.

Example createConfig_unset :
  createConfig ∅ Builtins.parseInt (Builtins.parseFloat Examples.exact)
  = Examples.defaults.
Proof. reflexivity. Qed.

(** A negative value is taken as it is. *)
Example createConfig_negative :
  MIN_KEYWORD_LENGTH
    (createConfig Examples.tuned Builtins.parseInt (Builtins.parseFloat Examples.exact))
  = -1
  ∧ MIN_RECENT_MESSAGES
      (createConfig Examples.tuned Builtins.parseInt (Builtins.parseFloat Examples.exact))
    = 5.
Proof. vm_compute. done. Qed.

(** ** The keyword extractor *)

Example split_whitespace_ends :
  split_whitespace " a  b "%string = [""; "a"; "b"; ""]%string.
Proof. reflexivity. Qed.

Example extractKeywords_pizza :
  extractKeywords Examples.defaults "What's a good pizza dough recipe? Pizza!"
  = ["pizza"; "dough"; "recipe"]%string.
Proof. vm_compute. reflexivity. Qed.

(** Ties keep the order of first occurrence, and only ten words remain. *)
Example extractKeywords_ten :
  extractKeywords Examples.defaults
    "alpha bravo charlie delta echo1 foxtrot golf hotel india juliet kilo1 lima golf"
  = ["golf"; "alpha"; "bravo"; "charlie"; "delta"; "echo1"; "foxtrot"; "hotel";
     "india"; "juliet"]%string.
Proof. vm_compute. reflexivity. Qed.

(** *** The frequency object *)

Lemma own_None (o : JsObject.object) (key : string) :
  JsObject.own o key = None ↔ key ∉ o.*1.
Proof.
  induction o as [|[k v] o IH]; cbn.
  - split; [intros _; apply not_elem_of_nil|done].
  - rewrite not_elem_of_cons, <- IH.
    destruct (String.eqb_spec k key) as [->|Hne]; [|by intuition].
    split; [done|]. by intros [? _].
Qed.

Lemma update_keys (o : JsObject.object) (key : string) (v : JsObject.value) :
  (JsObject.update o key v).*1
  = if decide (key ∈ o.*1) then o.*1 else o.*1 ++ [key].
Proof.
  induction o as [|[k v'] o IH]; cbn.
  - rewrite decide_False; [done|apply not_elem_of_nil].
  - destruct (String.eqb_spec k key) as [->|Hne]; cbn.
    + rewrite decide_True; [done|left].
    + rewrite IH. destruct (decide (key ∈ o.*1)) as [Hin|Hnin].
      * rewrite decide_True; [done|by right].
      * rewrite decide_False; [done|]. rewrite not_elem_of_cons.
        split; [by intros ->|done].
Qed.

Lemma count_word_keys (o : JsObject.object) (word : string) :
  ((count_word o word).*1 = o.*1)
  ∨ ((word ∉ o.*1) ∧ ((count_word o word).*1 = o.*1 ++ [word])).
Proof.
  unfold count_word, JsObject.set.
  destruct (String.eqb word "__proto__"); [by left|].
  rewrite update_keys. destruct (decide _); [by left|by right].
Qed.

Lemma wordFreq_keys (words : list string) (o : JsObject.object) :
  NoDup o.*1 →
  NoDup (foldl count_word o words).*1
  ∧ ∀ key, key ∈ (foldl count_word o words).*1 → key ∈ o.*1 ∨ key ∈ words.
Proof.
  revert o. induction words as [|w words IH]; intros o Ho; cbn.
  - split; [done|]. by left.
  - destruct (count_word_keys o w) as [Hsame|[Hnew Hkeys]].
    + destruct (IH (count_word o w)) as [Hnd Hin]; [by rewrite Hsame|].
      split; [done|]. intros key Hkey.
      destruct (Hin key Hkey) as [H|H]; [left; by rewrite <- Hsame|right; by right].
    + destruct (IH (count_word o w)) as [Hnd Hin].
      { rewrite Hkeys. apply NoDup_app. split; [done|]. split.
        - intros x Hx Hxw. apply list_elem_of_singleton in Hxw. by subst.
        - apply NoDup_singleton. }
      split; [done|]. intros key Hkey.
      destruct (Hin key Hkey) as [H|H]; [|right; by right].
      rewrite Hkeys in H. apply elem_of_app in H as [H|H]; [by left|].
      apply list_elem_of_singleton in H. subst. right. left.
Qed.

Lemma entries_perm (o : JsObject.object) : JsObject.entries o ≡ₚ o.
Proof.
  unfold JsObject.entries. rewrite sort_perm.
  rewrite <- (filter_app_complement (λ e, JsObject.is_array_index e.1) o) at 3.
  apply Permutation_app_head, reflexive_eq, list_filter_iff.
  intros e. apply negb_True.
Qed.

Lemma slice_0_10 {A} (l : list A) : JsArray.slice 0 10 l = take 10 l.
Proof.
  rewrite slice_0. unfold JsArray.relative_index. cbn.
  destruct (decide (length l ≤ 10)%nat).
  - rewrite !take_ge; [done|lia|lia].
  - f_equal. lia.
Qed.

(** What [extractKeywords] returns is a selection of the keys of the
    frequency object. *)
Lemma extractKeywords_sublist cfg text :
  ∃ ranked : list (string * JsObject.value),
    ranked ≡ₚ foldl count_word [] (keyword_candidates cfg text)
    ∧ extractKeywords cfg text = (take 10 ranked).*1.
Proof.
  unfold extractKeywords. fold (keyword_candidates cfg text). cbn zeta.
  rewrite slice_0_10. eexists. split; [|reflexivity].
  by rewrite sort_perm, entries_perm.
Qed.

(** *** Tokens *)

Lemma char_toLowerCase_idempotent (c : ascii) :
  is_lower_char (char_toLowerCase c) = true.
Proof. destruct c as [[] [] [] [] [] [] [] []]; reflexivity. Qed.

Lemma toLowerCase_lower (s : string) :
  string_forallb is_lower_char (toLowerCase s) = true.
Proof.
  unfold toLowerCase. induction s as [|c s IH]; [done|]. cbn.
  by rewrite char_toLowerCase_idempotent, IH.
Qed.

Lemma replace_punctuation_lower (s : string) :
  string_forallb is_lower_char s = true →
  string_forallb is_lower_char (replace_punctuation s) = true.
Proof.
  unfold replace_punctuation. induction s as [|c s IH]; [done|]. cbn.
  intros [Hc Hs]%andb_true_iff. rewrite (IH Hs), andb_true_r.
  by destruct (is_word_char c || is_space_char c).
Qed.

Lemma split_whitespace_forall (P : ascii → bool) (s : string) :
  string_forallb P s = true →
  Forall (λ piece, string_forallb P piece = true) (split_whitespace s).
Proof.
  induction s as [|c s IH]; cbn.
  - by repeat constructor.
  - intros [Hc Hs]%andb_true_iff. specialize (IH Hs).
    destruct (is_space_char c).
    + destruct (starts_with_space s); [done|]. by constructor.
    + destruct IH as [|piece rest Hpiece Hrest]; constructor; try done.
      * cbn. by rewrite Hc.
      * cbn. by rewrite Hc, Hpiece.
Qed.

Lemma lower_fixed (s : string) :
  string_forallb is_lower_char s = true → toLowerCase s = s.
Proof.
  unfold toLowerCase. induction s as [|c s IH]; [done|]. cbn.
  intros [Hc Hs]%andb_true_iff. rewrite (IH Hs).
  apply Ascii.eqb_eq in Hc. by rewrite Hc.
Qed.

Lemma tokens_lowercase (text token : string) :
  token ∈ tokens text → toLowerCase token = token.
Proof.
  intros Hin. apply lower_fixed.
  pose proof (split_whitespace_forall is_lower_char _
                (replace_punctuation_lower _ (toLowerCase_lower text))) as Hall.
  by apply (proj1 (Forall_forall _ _) Hall).
Qed.

(** *** What holds of every keyword list *)

(** X1.  Whatever the text, there are at most ten keywords, all
    different, each a lowercase word of the text that is long enough, no
    stop word and no number. *)
Lemma extractKeywords_filtered (cfg : Config) (text : string) :
  let out := extractKeywords cfg text in
  (length out ≤ 10)%nat
  ∧ NoDup out
  ∧ (∀ k, k ∈ out →
       k ∈ keyword_candidates cfg text
       ∧ toLowerCase k = k
       ∧ MIN_KEYWORD_LENGTH cfg ≤ Z.of_nat (String.length k)
       ∧ (k ∉ stopWords)
       ∧ is_pure_number k = false).
Proof.
  intros out. unfold out.
  destruct (extractKeywords_sublist cfg text) as (ranked & Hperm & ->).
  destruct (wordFreq_keys (keyword_candidates cfg text) []) as [Hnodup Hkeys];
    [constructor|].
  assert (fst <$> ranked
          ≡ₚ fst <$> foldl count_word [] (keyword_candidates cfg text))
    as Hperm1 by by rewrite Hperm.
  split; [|split].
  - rewrite length_fmap, length_take. lia.
  - rewrite fmap_take. eapply sublist_NoDup; [|apply sublist_take].
    by rewrite Hperm1.
  - intros k Hk. rewrite fmap_take in Hk.
    apply (λ H, elem_of_sublist _ _ _ H (sublist_take _ _)) in Hk.
    rewrite Hperm1 in Hk.
    destruct (Hkeys k Hk) as [Hnil|Hcand]; [by apply elem_of_nil in Hnil|].
    split; [done|].
    apply list_elem_of_filter in Hcand as [Hkeyword Htoken].
    split; [by apply tokens_lowercase with text|].
    unfold is_keyword, long_enough in Hkeyword.
    apply Is_true_true in Hkeyword.
    apply andb_true_iff in Hkeyword as [[Hlen Hstop]%andb_true_iff Hnum].
    apply bool_decide_eq_true in Hlen. apply negb_true_iff in Hstop, Hnum.
    apply bool_decide_eq_false in Hstop. done.
Qed.

(** There is none at all for the empty text when the minimum length is
    positive. *)
Lemma extractKeywords_empty (cfg : Config) :
  0 < MIN_KEYWORD_LENGTH cfg → extractKeywords cfg "" = [].
Proof.
  intros Hmin.
  assert (keyword_candidates cfg "" = []) as Hnone.
  { unfold keyword_candidates. change (tokens "") with [""%string].
    rewrite filter_cons, decide_False, filter_nil; [done|].
    unfold is_keyword, long_enough.
    rewrite bool_decide_eq_false_2; [by intros []|]. cbn. lia. }
  unfold extractKeywords. fold (keyword_candidates cfg ""). rewrite Hnone.
  reflexivity.
Qed.

(** *** Distinct words and frequencies *)

Lemma elem_of_distinct (words : list string) (w : string) :
  w ∈ distinct words ↔ w ∈ words.
Proof.
  induction words as [|v words IH]; [done|]. cbn.
  rewrite !elem_of_cons, list_elem_of_filter, IH.
  destruct (decide (w = v)); tauto.
Qed.

Lemma NoDup_distinct (words : list string) : NoDup (distinct words).
Proof.
  induction words as [|v words IH]; cbn; constructor.
  - rewrite list_elem_of_filter. by intros [? _].
  - by apply NoDup_filter.
Qed.

Lemma distinct_snoc (words : list string) (w : string) :
  distinct (words ++ [w])
  = if decide (w ∈ words) then distinct words else distinct words ++ [w].
Proof.
  induction words as [|v words IH]; [done|].
  cbn [app distinct]. rewrite IH.
  destruct (decide (w ∈ words)) as [Hin|Hnin].
  - rewrite decide_True by by right. done.
  - rewrite filter_app, filter_cons, filter_nil.
    destruct (decide (w = v)) as [->|Hne].
    + rewrite decide_False by (by intros ?).
      rewrite decide_True by left. by rewrite app_nil_r.
    + rewrite decide_True by done.
      rewrite decide_False; [done|]. by rewrite not_elem_of_cons.
Qed.

Lemma frequency_snoc (words : list string) (w v : string) :
  frequency (words ++ [w]) v
  = (frequency words v + if decide (w = v) then 1 else 0)%nat.
Proof.
  unfold frequency. rewrite filter_app, length_app, filter_cons, filter_nil.
  by destruct (decide (w = v)).
Qed.

Lemma frequency_pos (words : list string) (w : string) :
  w ∈ words → (0 < frequency words w)%nat.
Proof.
  intros Hin. unfold frequency.
  assert (w ∈ filter (λ v, v = w) words) as Hf by by apply list_elem_of_filter.
  destruct (filter _ words); [by apply elem_of_nil in Hf|cbn; lia].
Qed.

Lemma frequency_absent (words : list string) (w : string) :
  w ∉ words → frequency words w = 0%nat.
Proof.
  unfold frequency. induction words as [|v words IH]; [done|].
  rewrite not_elem_of_cons. intros [Hne Hnin].
  rewrite filter_cons, decide_False by done. by apply IH.
Qed.

Lemma first_index_order (words : list string) :
  StronglySorted (λ a b, (first_index words a < first_index words b)%nat)
    (distinct words).
Proof.
  induction words as [|w words IH]; cbn [distinct]; constructor.
  - eapply StronglySorted_weaken;
      [|by apply (StronglySorted_sublist _ _ _ (sublist_filter _ _) IH)].
    intros a b [Ha _]%list_elem_of_filter [Hb _]%list_elem_of_filter Hab. cbn.
    rewrite !decide_False by done. lia.
  - apply Forall_forall. intros v [Hne _]%list_elem_of_filter. cbn.
    rewrite decide_True by done. rewrite decide_False by done. lia.
Qed.

(** *** The frequency object holds the frequencies *)

Lemma own_tabulated (f : string → JsObject.value) (l : list string) (w : string) :
  JsObject.own ((λ v, (v, f v)) <$> l) w
  = if decide (w ∈ l) then Some (f w) else None.
Proof.
  induction l as [|v l IH]; cbn.
  - rewrite decide_False; [done|apply not_elem_of_nil].
  - destruct (String.eqb_spec v w) as [->|Hne].
    + rewrite decide_True; [done|left].
    + rewrite IH. destruct (decide (w ∈ l)) as [Hin|Hnin].
      * rewrite decide_True; [done|by right].
      * rewrite decide_False; [done|]. rewrite not_elem_of_cons.
        split; [by intros ->|done].
Qed.

Lemma update_tabulated_new (f : string → JsObject.value) (l : list string)
    (w : string) (x : JsObject.value) :
  w ∉ l →
  JsObject.update ((λ v, (v, f v)) <$> l) w x = ((λ v, (v, f v)) <$> l) ++ [(w, x)].
Proof.
  induction l as [|v l IH]; [done|]. cbn.
  rewrite not_elem_of_cons. intros [Hne Hnin].
  destruct (String.eqb_spec v w) as [->|_]; [done|]. by rewrite (IH Hnin).
Qed.

Lemma update_tabulated_old (f : string → JsObject.value) (l : list string)
    (w : string) (x : JsObject.value) :
  NoDup l → w ∈ l →
  JsObject.update ((λ v, (v, f v)) <$> l) w x
  = (λ v, (v, if decide (v = w) then x else f v)) <$> l.
Proof.
  induction 1 as [|v l Hv Hl IH]; [by intros ?%elem_of_nil|]. cbn.
  destruct (String.eqb_spec v w) as [->|Hne]; intros Hin.
  - rewrite decide_True by done. f_equal.
    apply list_fmap_ext. intros i u Hu.
    rewrite decide_False; [done|]. intros ->.
    apply Hv. by eapply list_elem_of_lookup_2.
  - rewrite decide_False by done. f_equal. apply IH.
    apply elem_of_cons in Hin as [->|Hin]; done.
Qed.

Lemma inherited_not_own (w : string) :
  inherited w = false → JsObject.own JsObject.Object_prototype w = None.
Proof. unfold inherited. by destruct (JsObject.own _ w). Qed.

Lemma wordFreq_counts (words : list string) :
  Forall (λ w, inherited w = false) words →
  foldl count_word [] words
  = (λ w, (w, JsObject.Number (Z.of_nat (frequency words w)))) <$> distinct words.
Proof.
  induction words as [|w words IH] using rev_ind; [done|].
  intros [Hwords Hw]%Forall_app. apply Forall_inv in Hw.
  rewrite foldl_app. cbn [foldl]. rewrite (IH Hwords). clear IH.
  assert (String.eqb w "__proto__" = false) as Hproto.
  { destruct (String.eqb_spec w "__proto__") as [->|]; [|done].
    vm_compute in Hw. discriminate Hw. }
  unfold count_word, JsObject.set, JsObject.get. rewrite Hproto, own_tabulated.
  rewrite distinct_snoc.
  destruct (decide (w ∈ words)) as [Hin|Hnin].
  - rewrite decide_True by by apply elem_of_distinct.
    pose proof (frequency_pos _ _ Hin) as Hpos. cbn.
    destruct (Z.eqb_spec (Z.of_nat (frequency words w)) 0) as [?|_]; [lia|]. cbn.
    rewrite update_tabulated_old;
      [|apply NoDup_distinct|by apply elem_of_distinct].
    apply list_fmap_ext. intros i v _. rewrite frequency_snoc.
    destruct (decide (v = w)) as [->|Hne].
    + rewrite decide_True by done. do 2 f_equal. lia.
    + rewrite decide_False by done. do 2 f_equal. lia.
  - rewrite decide_False by by rewrite elem_of_distinct.
    rewrite (inherited_not_own _ Hw). cbn.
    rewrite update_tabulated_new by by rewrite elem_of_distinct.
    rewrite fmap_app. cbn. rewrite frequency_snoc, decide_True by done.
    rewrite (frequency_absent _ _ Hnin).
    f_equal. apply list_fmap_ext. intros i v Hv. rewrite frequency_snoc.
    rewrite decide_False; [do 2 f_equal; lia|]. intros ->.
    apply Hnin, elem_of_distinct. by eapply list_elem_of_lookup_2.
Qed.

(** *** Sorting is stable *)

Section Stability.
Context {A : Type} (key : A → Z) (before : relation A).

Lemma sort_insert_descending (x : A) (acc : list A) :
  StronglySorted (descending key before) acc →
  Forall (λ y, before y x) acc →
  StronglySorted (descending key before)
    (JsArray.sort_insert (by_descending key) x acc).
Proof.
  induction 1 as [|y acc Hacc IH Hy]; intros Hbefore; cbn.
  - repeat constructor.
  - apply Forall_cons in Hbefore as [Hyx Hbefore].
    unfold by_descending at 1, JsArray.sign_Z.
    destruct (Z.compare_spec (key x - key y) 0) as [Heq|Hlt|Hgt].
    + constructor; [by apply IH|].
      rewrite sort_insert_perm. constructor; [|done]. right. split; [lia|done].
    + constructor; [by apply IH|].
      rewrite sort_insert_perm. constructor; [|done]. left. lia.
    + constructor; [by constructor|]. constructor; [left; lia|].
      eapply Forall_impl; [exact Hy|]. intros z [Hz|[Hz _]]; left; lia.
Qed.

Lemma sort_descending (l : list A) :
  StronglySorted before l →
  StronglySorted (descending key before) (JsArray.sort (by_descending key) l).
Proof.
  intros Hl. unfold JsArray.sort.
  assert (∀ acc,
            StronglySorted (descending key before) acc →
            Forall (λ y, Forall (before y) l) acc →
            StronglySorted (descending key before)
              (foldl (λ sorted x, JsArray.sort_insert (by_descending key) x sorted)
                 acc l))
    as Hfold.
  { induction Hl as [|x l Hl IH Hx]; intros acc Hacc Hbefore; cbn; [done|].
    apply IH.
    - apply sort_insert_descending; [done|].
      eapply Forall_impl; [exact Hbefore|]. intros y Hy. by apply Forall_inv in Hy.
    - rewrite sort_insert_perm. constructor; [done|].
      eapply Forall_impl; [exact Hbefore|]. intros y Hy.
      by apply Forall_inv_tail in Hy. }
  apply Hfold; constructor.
Qed.
End Stability.

Lemma sort_insert_fmap {A B} (f : A → B) (comparefn : B → B → comparison)
    (x : A) (l : list A) :
  JsArray.sort_insert comparefn (f x) (f <$> l)
  = f <$> JsArray.sort_insert (λ a b, comparefn (f a) (f b)) x l.
Proof.
  induction l as [|y l IH]; [done|]. cbn.
  destruct (comparefn (f y) (f x)); cbn; by rewrite ?IH.
Qed.

Lemma sort_fmap {A B} (f : A → B) (comparefn : B → B → comparison) (l : list A) :
  JsArray.sort comparefn (f <$> l)
  = f <$> JsArray.sort (λ a b, comparefn (f a) (f b)) l.
Proof.
  unfold JsArray.sort.
  change (@nil B) with (f <$> @nil A). generalize (@nil A).
  induction l as [|x l IH]; intros acc; [done|]. cbn.
  by rewrite sort_insert_fmap, IH.
Qed.

Lemma entries_plain (o : JsObject.object) :
  Forall (λ e, is_pure_number e.1 = false) o → JsObject.entries o = o.
Proof.
  intros Ho. unfold JsObject.entries.
  assert (filter (λ e : string * JsObject.value, JsObject.is_array_index e.1) o = []
          ∧ filter (λ e : string * JsObject.value,
                      negb (JsObject.is_array_index e.1)) o = o) as [-> ->].
  { induction o as [|e o IH]; [done|].
    apply Forall_cons in Ho as [He Ho]. destruct (IH Ho) as [IH1 IH2].
    assert (JsObject.is_array_index e.1 = false) as Hindex.
    { unfold JsObject.is_array_index. by rewrite He. }
    rewrite !filter_cons, IH1, IH2, Hindex. cbn.
    rewrite decide_False by (by intros []). by rewrite decide_True. }
  done.
Qed.

(** *** The ranking *)

(** X2.  When no word of the text names an inherited property, the
    keywords are the first ten of the distinct candidate words ranked by
    descending frequency, ties by first occurrence. *)
Lemma extractKeywords_ranked (cfg : Config) (text : string) :
  let words := keyword_candidates cfg text in
  Forall (λ w, inherited w = false) words →
  ∃ ranked : list string,
    ranked ≡ₚ distinct words
    ∧ StronglySorted (ranks_before words) ranked
    ∧ extractKeywords cfg text = take 10 ranked.
Proof.
  intros words Hwords.
  set (key := λ w : string, Z.of_nat (frequency words w)).
  set (before := λ a b : string, (first_index words a < first_index words b)%nat).
  exists (JsArray.sort (by_descending key) (distinct words)).
  split; [apply sort_perm|]. split.
  - eapply StronglySorted_weaken;
      [|apply (sort_descending key before), first_index_order].
    intros a b _ _ [Hlt|[Heq Hbefore]]; unfold key in *; [left; lia|right].
    split; [lia|done].
  - unfold extractKeywords. fold (keyword_candidates cfg text). fold words.
    cbn zeta. rewrite (wordFreq_counts _ Hwords), entries_plain.
    + rewrite slice_0_10, sort_fmap, <- fmap_take, <- list_fmap_compose.
      change (JsArray.sort _ (distinct words))
        with (JsArray.sort (by_descending key) (distinct words)).
      generalize (take 10 (JsArray.sort (by_descending key) (distinct words))).
      intros l. rewrite <- (list_fmap_id l) at 2. by apply list_fmap_ext.
    + apply Forall_fmap, Forall_forall. intros w Hw. cbn.
      apply elem_of_distinct, list_elem_of_filter in Hw as [Hkeyword _].
      unfold is_keyword in Hkeyword. apply Is_true_true in Hkeyword.
      apply andb_true_iff in Hkeyword as [_ Hnum]. by apply negb_true_iff in Hnum.
Qed.

Lemma extractKeywords_ranked_witness :
  ∃ ranked : list string,
    extractKeywords Examples.defaults "What's a good pizza dough recipe? Pizza!"
    = take 10 ranked.
Proof.
  destruct (extractKeywords_ranked Examples.defaults
              "What's a good pizza dough recipe? Pizza!")
    as (ranked & _ & _ & Hout).
  - vm_compute. repeat constructor.
  - exists ranked. exact Hout.
Defined.

(** With a minimum length below 1 the empty text gives one empty keyword. *)
Example extractKeywords_empty_negative :
  extractKeywords
    (createConfig Examples.tuned Builtins.parseInt (Builtins.parseFloat Examples.exact))
    ""
  = [""%string].
Proof. vm_compute. reflexivity. Qed.

(** *** An inherited property among the words *)

(** C5 fails on a word that names a property every object inherits.  In
    "copy constructor, move constructor" the word "constructor" occurs
    twice and every other word once, yet it is ranked second: the counter
    starts from the inherited [constructor] function instead of 0, what is
    stored is a text, and the sort sees NaN. *)
Theorem extractKeywords_inherited_property :
  let text := "copy constructor, move constructor"%string in
  let words := keyword_candidates Examples.defaults text in
  words = ["copy"; "constructor"; "move"; "constructor"]%string
  ∧ frequency words "constructor" = 2%nat
  ∧ frequency words "copy" = 1%nat
  ∧ extractKeywords Examples.defaults text = ["copy"; "constructor"; "move"]%string.
Proof. vm_compute. repeat split. Qed.

(** ** The relevance scorer *)

Lemma monotone_exact : monotone Examples.exact.
Proof. by intros x y. Qed.

Lemma exact_at_exact x : exact_at Examples.exact x.
Proof. unfold exact_at, Examples.exact. reflexivity. Qed.

Lemma quotient_bounds (m k : Z) :
  0 ≤ m ≤ k → 0 < k → (0 <= inject_Z m / inject_Z k <= 1)%Q.
Proof.
  intros Hm Hk. destruct k as [|p|p]; [lia| |lia].
  rewrite <- Qmake_Qdiv. unfold Qle. cbn. lia.
Qed.

Lemma quotient_grows (m k : Z) :
  0 ≤ m ≤ k → 0 < k →
  (inject_Z m / inject_Z k <= inject_Z (m + 1) / inject_Z (k + 1))%Q.
Proof.
  intros Hm Hk. destruct k as [|p|p]; [lia| |lia].
  replace (Z.pos p + 1) with (Z.pos (p + 1)) by lia.
  rewrite <- !Qmake_Qdiv. unfold Qle. cbn. nia.
Qed.

Lemma count_matches (test : string → bool) (keywords : list string) (acc : Z) :
  foldl (λ matches keyword, if test keyword then matches + 1 else matches)
    acc keywords
  = acc + Z.of_nat (length (filter (λ keyword, test keyword) keywords)).
Proof.
  revert acc. induction keywords as [|kw keywords IH]; intros acc; cbn [foldl].
  - rewrite filter_nil. cbn. lia.
  - rewrite IH, filter_cons. destruct (test kw).
    + rewrite decide_True by done. cbn [length]. lia.
    + rewrite decide_False by (by intros []). lia.
Qed.

(** The score, read off the code: the rounded quotient of the number of
    matching keywords by the number of keywords, and [0] without a
    division when there is no keyword. *)
Lemma calculateRelevance_value rnd cfg msg keywords :
  calculateRelevance rnd cfg msg keywords =
    match keywords with
    | [] => JsNumber.Finite 0
    | _ =>
        JsNumber.Finite
          (rnd (inject_Z (Z.of_nat (length (matching_keywords cfg msg keywords)))
                / inject_Z (Z.of_nat (length keywords)))%Q)
    end.
Proof.
  unfold calculateRelevance. destruct keywords as [|kw keywords]; [done|].
  cbn [length Nat.eqb]. rewrite count_matches. unfold JsNumber.div.
  destruct (Z.eqb_spec (Z.of_nat (S (length keywords))) 0) as [?|_]; [lia|].
  done.
Qed.

Lemma matching_keywords_length cfg msg keywords :
  (length (matching_keywords cfg msg keywords) ≤ length keywords)%nat.
Proof. apply length_filter. Qed.

Lemma matching_keywords_insert cfg msg kws1 kw kws2 :
  matches_message cfg msg kw = true →
  matching_keywords cfg msg (kws1 ++ kw :: kws2)
  = matching_keywords cfg msg kws1 ++ kw :: matching_keywords cfg msg kws2.
Proof.
  intros Hkw. unfold matching_keywords.
  rewrite filter_app, filter_cons. by rewrite decide_True by by rewrite Hkw.
Qed.

Lemma matching_keywords_app cfg msg kws1 kws2 :
  matching_keywords cfg msg (kws1 ++ kws2)
  = matching_keywords cfg msg kws1 ++ matching_keywords cfg msg kws2.
Proof. unfold matching_keywords. by rewrite filter_app. Qed.

(** C8.  The scorer always returns a finite number between 0 and 1, never
    NaN or an infinity: 0 without dividing when there is no keyword, and
    otherwise the rounded quotient of the number of matching keywords by
    the number of keywords, whose divisor is not zero. *)
Theorem calculateRelevance_total (rnd : Q → Q) (cfg : Config) (msg : Message)
    (keywords : list string) :
  monotone rnd → exact_at rnd 0 → exact_at rnd 1 →
  ∃ q : Q,
    calculateRelevance rnd cfg msg keywords = JsNumber.Finite q
    ∧ (0 <= q <= 1)%Q
    ∧ (keywords = [] → q = 0%Q)
    ∧ (keywords ≠ [] →
       Z.of_nat (length keywords) ≠ 0
       ∧ q = rnd (inject_Z (Z.of_nat (length (matching_keywords cfg msg keywords)))
                  / inject_Z (Z.of_nat (length keywords)))%Q).
Proof.
  intros Hmono H0 H1. rewrite calculateRelevance_value.
  destruct keywords as [|kw keywords].
  - exists 0%Q. repeat split; try done.
  - eexists. split; [done|]. split; [|split; [done|]].
    + pose proof (matching_keywords_length cfg msg (kw :: keywords)) as Hlen.
      destruct (quotient_bounds
                  (Z.of_nat (length (matching_keywords cfg msg (kw :: keywords))))
                  (Z.of_nat (length (kw :: keywords)))) as [Hlo Hhi];
        [lia|cbn; lia|].
      split.
      * apply Qle_trans with (rnd 0%Q); [|by apply Hmono].
        apply Qle_lteq. right. symmetry. exact H0.
      * apply Qle_trans with (rnd 1%Q); [by apply Hmono|].
        apply Qle_lteq. right. exact H1.
    + intros _. split; [cbn; lia|done].
Qed.

Lemma calculateRelevance_total_witness :
  ∃ q : Q,
    calculateRelevance Examples.exact Examples.defaults
      (Examples.says user 1 "Any pizza recipes?") ["pizza"; "dough"; "recipe"]%string
    = JsNumber.Finite q
    ∧ (0 <= q <= 1)%Q.
Proof.
  destruct (calculateRelevance_total Examples.exact Examples.defaults
              (Examples.says user 1 "Any pizza recipes?")
              ["pizza"; "dough"; "recipe"]%string
              monotone_exact (exact_at_exact 0) (exact_at_exact 1))
    as (q & Hq & Hbounds & _).
  exists q. split; [exact Hq|exact Hbounds].
Defined.

(** C6.  Adding a keyword that matches the message, anywhere in the
    keyword list, never lowers the message's score. *)
Theorem calculateRelevance_monotone (rnd : Q → Q) (cfg : Config) (msg : Message)
    (kws1 kws2 : list string) (kw : string) :
  monotone rnd → exact_at rnd 0 →
  matches_message cfg msg kw = true →
  ∃ q q' : Q,
    calculateRelevance rnd cfg msg (kws1 ++ kws2) = JsNumber.Finite q
    ∧ calculateRelevance rnd cfg msg (kws1 ++ kw :: kws2) = JsNumber.Finite q'
    ∧ (q <= q')%Q.
Proof.
  intros Hmono H0 Hkw. rewrite !calculateRelevance_value.
  rewrite (matching_keywords_insert _ _ _ _ _ Hkw), matching_keywords_app.
  pose proof (matching_keywords_length cfg msg kws1) as Hlen1.
  pose proof (matching_keywords_length cfg msg kws2) as Hlen2.
  rewrite !length_app. cbn [length].
  set (m1 := length (matching_keywords cfg msg kws1)) in *.
  set (m2 := length (matching_keywords cfg msg kws2)) in *.
  destruct (kws1 ++ kw :: kws2) eqn:Hnew; [by destruct kws1|].
  destruct (kws1 ++ kws2) eqn:Hold.
  - apply app_eq_nil in Hold as [-> ->]. cbn in *.
    eexists _, _. split; [done|]. split; [done|].
    apply Qle_trans with (rnd 0%Q).
    { apply Qle_lteq. right. symmetry. exact H0. }
    apply Hmono.
    assert (m1 = 0 ∧ m2 = 0)%nat as [-> ->] by lia. done.
  - assert (length kws1 + length kws2 = S (length l0))%nat as Hk.
    { by rewrite <- length_app, Hold. }
    eexists _, _. split; [done|]. split; [done|].
    apply Hmono.
    replace (Z.of_nat (m1 + S m2)) with (Z.of_nat (m1 + m2) + 1) by lia.
    replace (Z.of_nat (length kws1 + S (length kws2)))
      with (Z.of_nat (length kws1 + length kws2) + 1) by lia.
    apply quotient_grows; lia.
Qed.

Lemma calculateRelevance_monotone_witness :
  ∃ q q' : Q,
    calculateRelevance Examples.exact Examples.defaults
      (Examples.says user 1 "Any pizza recipes?") ["dough"]%string
    = JsNumber.Finite q
    ∧ calculateRelevance Examples.exact Examples.defaults
        (Examples.says user 1 "Any pizza recipes?") ["dough"; "pizza"]%string
      = JsNumber.Finite q'
    ∧ (q <= q')%Q.
Proof.
  apply (calculateRelevance_monotone Examples.exact Examples.defaults
           (Examples.says user 1 "Any pizza recipes?")
           ["dough"]%string []%list "pizza"%string
           monotone_exact (exact_at_exact 0)).
  vm_compute. reflexivity.
Defined.

(** ** The selector *)

(** The value the selector returns, read off its code: [k] is where the
    recent window starts. *)
Lemma selectRelevantMessages_value rnd history prompt w :
  value_of (selectRelevantMessages rnd history prompt) w =
    let cfg := CONFIG w in
    let keywords := extractKeywords cfg prompt in
    let k := JsArray.relative_index (length history) (- MIN_RECENT_MESSAGES cfg) in
    match take k history with
    | [] => drop k history
    | older =>
        JsArray.sort (λ a b, JsArray.sign_Z (timestamp a - timestamp b))
          ((message <$>
             JsArray.slice 0 (MAX_RELEVANT_OLDER cfg)
               (JsArray.sort (λ a b, JsNumber.minus_sign (score b) (score a))
                  (filter (λ item, JsNumber.ge (score item) (RELEVANCE_THRESHOLD cfg))
                     ((λ msg, {| message := msg;
                                 score := calculateRelevance rnd cfg msg keywords |})
                      <$> older))))
           ++ drop k history)
    end.
Proof.
  unfold selectRelevantMessages.
  destruct history as [|m0 history]; [by rewrite take_nil, drop_nil|].
  cbn [length Nat.eqb].
  rewrite value_of_bind. unfold read_config at 1.
  unfold value_of at 2, world_after at 1. cbn [fst snd id].
  rewrite value_of_bind. unfold JsArray.slice_from. rewrite slice_0.
  set (k := JsArray.relative_index _ _).
  destruct (take k (m0 :: history)) as [|m1 older] eqn:Holder; cbn [length Nat.eqb].
  - done.
  - by rewrite value_of_bind.
Qed.

(** ** The selector: order and multiplicity *)

Lemma by_timestamp_precede a b :
  may_precede by_timestamp a b ↔ timestamp a ≤ timestamp b.
Proof.
  unfold may_precede, by_timestamp, JsArray.sign_Z.
  destruct (Z.compare_spec (timestamp a - timestamp b) 0); split; (done || lia).
Qed.

Lemma by_timestamp_total a b : by_timestamp a b = Gt → by_timestamp b a ≠ Gt.
Proof.
  unfold by_timestamp, JsArray.sign_Z. intros H1 H2.
  apply Z.compare_gt_iff in H1, H2. lia.
Qed.

Lemma Sorted_weaken {A} (R R' : relation A) l :
  (∀ a b, R a b → R' a b) → Sorted R l → Sorted R' l.
Proof.
  intros HR. induction 1 as [|x l _ IH Hhd]; constructor; [done|].
  destruct Hhd; constructor; auto.
Qed.

Lemma sort_by_timestamp_chronological l :
  chronological (JsArray.sort by_timestamp l).
Proof.
  eapply Sorted_weaken; [|by apply sort_sorted, by_timestamp_total].
  intros a b. apply by_timestamp_precede.
Qed.

Lemma sort_by_timestamp_id l :
  chronological l → JsArray.sort by_timestamp l = l.
Proof.
  intros Hl. apply sort_sorted_id.
  apply Sorted_StronglySorted.
  - intros a b c. rewrite !by_timestamp_precede. lia.
  - eapply Sorted_weaken; [|exact Hl]. intros a b. apply by_timestamp_precede.
Qed.

(** The older messages the selector keeps are among the older messages,
    each position at most once. *)
Lemma kept_older_submseteq (score_of : Message → JsNumber.number)
    (threshold : JsNumber.number) (maxOlder : Z) (older : list Message) :
  message <$>
    JsArray.slice 0 maxOlder
      (JsArray.sort (λ a b, JsNumber.minus_sign (score b) (score a))
         (filter (λ item, JsNumber.ge (score item) threshold)
            ((λ msg, {| message := msg; score := score_of msg |}) <$> older)))
  ⊆+ older.
Proof.
  rewrite slice_0.
  set (scored := (λ msg, {| message := msg; score := score_of msg |}) <$> older).
  transitivity (message <$> scored).
  - apply fmap_submseteq.
    etransitivity; [apply sublist_submseteq, sublist_take|].
    rewrite sort_perm. apply sublist_submseteq, sublist_filter.
  - unfold scored. rewrite <- list_fmap_compose.
    rewrite <- (list_fmap_id older) at 2.
    by rewrite (list_fmap_ext (message ∘ _) id older).
Qed.

(** C7.  A history no longer than the recent window comes back whole and
    in its own order; the selector then logs the keywords at most, and
    scores, filters and sorts nothing. *)
Theorem selectRelevantMessages_short (rnd : Q → Q) (history : list Message)
    (prompt : string) (w : World) :
  Z.of_nat (length history) ≤ MIN_RECENT_MESSAGES (CONFIG w) →
  value_of (selectRelevantMessages rnd history prompt) w = history
  ∧ console (world_after (selectRelevantMessages rnd history prompt) w)
    = console w ++
      match history with
      | [] => []
      | _ => [KeywordsExtracted (extractKeywords (CONFIG w) prompt)]
      end.
Proof.
  intros Hlen. split.
  - rewrite selectRelevantMessages_value. cbn zeta.
    destruct history as [|m0 history]; [by rewrite take_nil, drop_nil|].
    rewrite relative_index_neg by (cbn in Hlen; lia).
    replace (length (m0 :: history) - Z.to_nat (MIN_RECENT_MESSAGES (CONFIG w)))%nat
      with 0%nat by lia.
    done.
  - unfold selectRelevantMessages.
    destruct history as [|m0 history]; [by rewrite app_nil_r|].
    cbn [length Nat.eqb]. run_monad.
    rewrite slice_0, relative_index_neg by (cbn in Hlen; lia).
    replace (length (m0 :: history) - Z.to_nat (MIN_RECENT_MESSAGES (CONFIG w)))%nat
      with 0%nat by lia.
    done.
Qed.

Lemma selectRelevantMessages_short_witness :
  value_of (selectRelevantMessages Examples.exact Examples.out_of_order "hello")
    (Examples.start Examples.defaults)
  = Examples.out_of_order.
Proof.
  apply (selectRelevantMessages_short Examples.exact Examples.out_of_order "hello"
           (Examples.start Examples.defaults)).
  cbn. lia.
Defined.

(** C2, as the code has it.  Each position of the history contributes to
    the selector's output at most once.  The output is in chronological
    order when the history is, and also when some message lies before the
    recent window (the selector then sorts); a short history that is out
    of order comes back as it is. *)
Theorem selectRelevantMessages_chronological (rnd : Q → Q)
    (history : list Message) (prompt : string) (w : World) :
  let out := value_of (selectRelevantMessages rnd history prompt) w in
  out ⊆+ history
  ∧ (chronological history → chronological out)
  ∧ (0 < MIN_RECENT_MESSAGES (CONFIG w) < Z.of_nat (length history) →
     chronological out).
Proof.
  intros out. unfold out. rewrite selectRelevantMessages_value. cbn zeta.
  set (k := JsArray.relative_index _ _).
  destruct (take k history) as [|m0 older] eqn:Holder.
  - split; [apply sublist_submseteq, sublist_drop|]. split.
    + apply chronological_suffix, suffix_drop.
    + intros Hn. exfalso.
      assert (length (take k history) = 0%nat) as Hlen by by rewrite Holder.
      rewrite length_take in Hlen. unfold k in Hlen.
      rewrite relative_index_neg in Hlen; lia.
  - split; [|split; intros _; apply sort_by_timestamp_chronological].
    rewrite sort_perm. rewrite <- (take_drop k history) at 2.
    apply submseteq_app; [|done]. rewrite Holder.
    apply kept_older_submseteq.
Qed.

Lemma selectRelevantMessages_chronological_witness :
  chronological
    (value_of (selectRelevantMessages Examples.exact Examples.pizza_history
                 "what's a good pizza dough recipe")
       (Examples.start Examples.defaults)).
Proof.
  apply (selectRelevantMessages_chronological Examples.exact Examples.pizza_history
           "what's a good pizza dough recipe" (Examples.start Examples.defaults)).
  cbn. lia.
Defined.

(** C2 as stated fails, whatever the rounding: a short history that is
    out of order is returned as it is. *)
Lemma selectRelevantMessages_unsorted_counterexample :
  ¬ (∃ rnd : Q → Q,
       ∀ (history : list Message) (prompt : string) (w : World),
         let out := value_of (selectRelevantMessages rnd history prompt) w in
         chronological out ∧ out ⊆+ history).
Proof.
  intros [rnd H].
  destruct (H Examples.out_of_order "hello"%string
              (Examples.start Examples.defaults)) as [Hsorted _].
  replace (value_of _ _) with Examples.out_of_order in Hsorted
    by (vm_compute; reflexivity).
  apply Sorted_inv in Hsorted as [_ Hhd].
  apply HdRel_inv in Hhd. cbn in Hhd. lia.
Qed.

(** One older message mentions the keywords and joins the recent three. *)
Example selectRelevantMessages_pizza :
  value_of
    (selectRelevantMessages Examples.exact Examples.pizza_history
       "a good pizza recipe")
    (Examples.start Examples.defaults)
  = [ Examples.says user 1 "Any pizza recipes?";
      Examples.says user 3 "How long to bake?";
      Examples.says assistant 4 "Ten minutes.";
      Examples.says user 5 "Thanks!" ]%string.
Proof. vm_compute. reflexivity. Qed.

(** ** The selector without keywords *)

Lemma filter_fmap_none {A B} (P : B → Prop) `{∀ y, Decision (P y)}
    (f : A → B) (l : list A) :
  (∀ x, ¬ P (f x)) → filter P (f <$> l) = [].
Proof.
  intros Hnone. induction l as [|x l IH]; [done|].
  rewrite fmap_cons, filter_cons, decide_False by apply Hnone. exact IH.
Qed.

Lemma no_keywords_below_threshold (threshold : Q) :
  (0 < threshold)%Q →
  ¬ JsNumber.ge (JsNumber.Finite 0) (JsNumber.Finite threshold).
Proof.
  intros Hpos Hge. cbn in Hge. apply Is_true_true, Qle_bool_iff in Hge.
  apply (Qlt_not_le _ _ Hpos Hge).
Qed.

Lemma last_entries_drop {A} (n : Z) (l : list A) :
  0 < n →
  drop (JsArray.relative_index (length l) (- n)) l = last_entries (Z.to_nat n) l.
Proof. intros Hn. unfold last_entries. by rewrite relative_index_neg. Qed.

(** C4, as the code has it.  When no keyword survives extraction and the
    relevance threshold is positive, the selector returns the recent
    window, the last [MIN_RECENT_MESSAGES] entries of the history, and no
    older message: the same entries always, and in the same order when the
    history is chronological. *)
Theorem selectRelevantMessages_no_keywords (rnd : Q → Q)
    (history : list Message) (prompt : string) (w : World) (threshold : Q) :
  extractKeywords (CONFIG w) prompt = [] →
  RELEVANCE_THRESHOLD (CONFIG w) = JsNumber.Finite threshold →
  (0 < threshold)%Q →
  0 < MIN_RECENT_MESSAGES (CONFIG w) →
  let out := value_of (selectRelevantMessages rnd history prompt) w in
  let recent := last_entries (Z.to_nat (MIN_RECENT_MESSAGES (CONFIG w))) history in
  out ≡ₚ recent ∧ (chronological history → out = recent).
Proof.
  intros Hkw Hfinite Hthreshold Hrecent out recent. unfold out, recent.
  rewrite selectRelevantMessages_value. cbn zeta.
  rewrite Hkw, Hfinite, (last_entries_drop _ _ Hrecent).
  destruct (take _ history) as [|m0 older]; [done|].
  rewrite filter_fmap_none by (intros msg; by apply no_keywords_below_threshold).
  change (JsArray.sort _ []) with (@nil Scored).
  rewrite slice_0, take_nil, fmap_nil, app_nil_l.
  split; [apply sort_perm|].
  intros Hhistory. apply sort_by_timestamp_id.
  eapply chronological_suffix; [|exact Hhistory]. apply suffix_drop.
Qed.

Lemma selectRelevantMessages_no_keywords_witness :
  value_of (selectRelevantMessages Examples.exact Examples.pizza_history "is it ok?")
    (Examples.start Examples.defaults)
  ≡ₚ last_entries 3 Examples.pizza_history.
Proof.
  apply (selectRelevantMessages_no_keywords Examples.exact Examples.pizza_history
           "is it ok?" (Examples.start Examples.defaults) (3 # 10)).
  - vm_compute. reflexivity.
  - reflexivity.
  - reflexivity.
  - reflexivity.
Defined.

(** C4 as stated fails at a relevance threshold of 0, whatever the
    rounding: without keywords every older message scores 0, which reaches
    the threshold, so older messages are kept. *)
Lemma selectRelevantMessages_threshold_zero_counterexample :
  ¬ (∃ rnd : Q → Q,
       ∀ (history : list Message) (prompt : string) (w : World) (threshold : Q),
         RELEVANCE_THRESHOLD (CONFIG w) = JsNumber.Finite threshold →
         (0 <= threshold <= 1)%Q →
         extractKeywords (CONFIG w) prompt = [] →
         value_of (selectRelevantMessages rnd history prompt) w
         = last_entries (Z.to_nat (MIN_RECENT_MESSAGES (CONFIG w))) history).
Proof.
  intros [rnd H].
  specialize (H Examples.pizza_history "is it ok?"%string
                (Examples.start Examples.threshold_zero) 0%Q).
  assert (value_of
            (selectRelevantMessages rnd Examples.pizza_history "is it ok?")
            (Examples.start Examples.threshold_zero)
          = Examples.pizza_history) as Hall by (vm_compute; reflexivity).
  rewrite Hall in H.
  assert (length Examples.pizza_history = 3%nat) as Hlen.
  { rewrite H at 1.
    - reflexivity.
    - reflexivity.
    - split; discriminate.
    - vm_compute. reflexivity. }
  discriminate Hlen.
Qed.

(** ** The budgeter *)

Lemma cost_cons msg l : cost (msg :: l) = msgSize msg + cost l.
Proof. reflexivity. Qed.

Lemma cost_app l1 l2 : cost (l1 ++ l2) = cost l1 + cost l2.
Proof.
  induction l1 as [|m l1 IH]; [done|].
  rewrite <- app_comm_cons, !cost_cons. lia.
Qed.

Lemma msgSize_pos msg : 30 ≤ msgSize msg.
Proof. unfold msgSize. lia. Qed.

Lemma cost_nonneg l : 0 ≤ cost l.
Proof.
  induction l as [|m l IH]; [done|].
  rewrite cost_cons. pose proof (msgSize_pos m). lia.
Qed.

(** The loop invariant: [result] is the suffix of [messages] from [n] on,
    [totalChars] is its cost, and it is within budget unless it is a
    single message. *)
Lemma truncate_loop_invariant messages maxChars n totalChars result w :
  (n ≤ length messages)%nat →
  result = drop n messages →
  totalChars = cost result →
  (cost result ≤ maxChars ∨ (length result ≤ 1)%nat) →
  ∃ k, (k ≤ n)%nat
    ∧ value_of (truncate_loop messages maxChars n totalChars result) w
      = drop k messages
    ∧ ((0 < n)%nat ∨ result ≠ [] → (k < length messages)%nat)
    ∧ (cost (drop k messages) ≤ maxChars ∨ (length (drop k messages) ≤ 1)%nat).
Proof.
  revert totalChars result w.
  induction n as [|i IH]; intros totalChars result w Hn Hres Htot Hinv.
  - exists 0%nat. cbn. subst result.
    split; [lia|]. split; [by rewrite drop_0|].
    split; [|by rewrite drop_0 in *].
    intros [?|Hne]; [lia|].
    destruct messages; [by rewrite drop_0 in Hne|]. cbn; lia.
  - destruct (lookup_lt_is_Some_2 messages i) as [msg Hmsg]; [lia|].
    pose proof (drop_S _ _ _ Hmsg) as Hdrop.
    cbn [truncate_loop]. rewrite Hmsg.
    destruct (bool_decide (totalChars + msgSize msg > maxChars)
              && bool_decide (0 < length result)%nat) eqn:Hcond.
    + exists (S i). rewrite value_of_bind, value_of_ret. subst result.
      split; [lia|]. split; [done|]. split; [|done].
      intros _. apply andb_true_iff in Hcond as [_ Hlen].
      apply bool_decide_eq_true in Hlen. rewrite length_drop in Hlen. lia.
    + destruct (IH (totalChars + msgSize msg) (msg :: result) w)
        as (k & Hk & Hv & Hne & Hc).
      * lia.
      * by rewrite Hdrop, Hres.
      * rewrite cost_cons. lia.
      * apply andb_false_iff in Hcond as [Hc|Hc]; apply bool_decide_eq_false in Hc.
        -- left. rewrite cost_cons. lia.
        -- right. cbn. lia.
      * exists k. split; [lia|]. split; [done|]. split; [|done].
        intros _. apply Hne. by right.
Qed.

Lemma truncateToCharLimit_drop messages maxChars w :
  ∃ k, value_of (truncateToCharLimit messages maxChars) w = drop k messages
    ∧ (messages ≠ [] → (k < length messages)%nat)
    ∧ (cost (drop k messages) ≤ maxChars ∨ (length (drop k messages) ≤ 1)%nat).
Proof.
  destruct (truncate_loop_invariant messages maxChars (length messages) 0 [] w)
    as (k & _ & Hv & Hne & Hc).
  - done.
  - by rewrite drop_all.
  - done.
  - right. cbn. lia.
  - exists k. split; [done|]. split; [|done].
    intros Hm. apply Hne. left. destruct messages; [done|cbn; lia].
Qed.

(** C1.  The budgeter's result is never empty for a non-empty input; it
    costs at most the budget whenever the newest message alone fits, and
    is exactly the newest message when that one alone exceeds the budget.
    (No order on the input is needed.) *)
Theorem truncateToCharLimit_budget (messages : list Message) (maxChars : Z)
    (newest : Message) (w : World) :
  last messages = Some newest →
  let out := value_of (truncateToCharLimit messages maxChars) w in
  out ≠ []
  ∧ (msgSize newest ≤ maxChars → cost out ≤ maxChars)
  ∧ (msgSize newest > maxChars → out = [newest]).
Proof.
  intros Hlast out.
  destruct (truncateToCharLimit_drop messages maxChars w) as (k & Hv & Hk & Hc).
  fold out in Hv.
  apply last_Some in Hlast as [older ->].
  assert (k < length (older ++ [newest]))%nat as Hlt.
  { apply Hk. by destruct older. }
  rewrite length_app in Hlt. cbn in Hlt.
  assert (out = drop k older ++ [newest]) as Hout.
  { rewrite Hv, drop_app_le by lia. done. }
  rewrite <- Hv in Hc. rewrite Hout in *.
  rewrite cost_app, length_app in Hc. cbn in Hc.
  pose proof (cost_nonneg (drop k older)) as Hpos.
  assert ((length (drop k older) + 1 ≤ 1)%nat → drop k older = []) as Hone.
  { destruct (drop k older); [done|cbn; lia]. }
  split; [by destruct (drop k older)|]. split.
  - intros Hfit. rewrite cost_app. cbn.
    destruct Hc as [Hc|Hc]; [lia|]. rewrite (Hone Hc). cbn. lia.
  - intros Hbig. destruct Hc as [Hc|Hc]; [lia|]. by rewrite (Hone Hc).
Qed.

Lemma truncateToCharLimit_budget_witness :
  value_of (truncateToCharLimit Examples.pizza_history 50)
    (Examples.start Examples.defaults) ≠ [].
Proof.
  apply (truncateToCharLimit_budget Examples.pizza_history 50
           (Examples.says user 5 "Thanks!") (Examples.start Examples.defaults)).
  reflexivity.
Defined.

(** C3.  The budgeter's result is a suffix of its input, so it keeps the
    input's order; a chronological input gives a chronological result. *)
Theorem truncateToCharLimit_suffix (messages : list Message) (maxChars : Z)
    (w : World) :
  let out := value_of (truncateToCharLimit messages maxChars) w in
  out `suffix_of` messages ∧ (chronological messages → chronological out).
Proof.
  intros out.
  destruct (truncateToCharLimit_drop messages maxChars w) as (k & Hv & _).
  fold out in Hv.
  assert (out `suffix_of` messages) as Hsuf by (rewrite Hv; apply suffix_drop).
  split; [done|]. by apply chronological_suffix.
Qed.

Lemma truncateToCharLimit_suffix_witness :
  chronological
    (value_of (truncateToCharLimit Examples.pizza_history 100)
       (Examples.start Examples.defaults)).
Proof.
  apply (truncateToCharLimit_suffix Examples.pizza_history 100
           (Examples.start Examples.defaults)).
  repeat constructor; cbn; lia.
Defined.

(** A budget of 50 and ten messages of 40 characters: the newest alone. *)
Example truncateToCharLimit_ten :
  value_of (truncateToCharLimit Examples.ten_messages 50)
    (Examples.start Examples.defaults)
  = [Examples.says user 10 Examples.forty].
Proof. vm_compute. reflexivity. Qed.

(** ** The statistics accessor: effects *)

Lemma console_only_truncate_loop messages maxChars n totalChars result :
  console_only (truncate_loop messages maxChars n totalChars result).
Proof.
  revert totalChars result.
  induction n as [|i IH]; intros totalChars result; cbn [truncate_loop].
  - auto with console_only.
  - destruct (messages !! i); auto with console_only.
Qed.

Lemma console_only_truncateToCharLimit messages maxChars :
  console_only (truncateToCharLimit messages maxChars).
Proof. apply console_only_truncate_loop. Qed.

Lemma console_only_selectRelevantMessages rnd history prompt :
  console_only (selectRelevantMessages rnd history prompt).
Proof. unfold selectRelevantMessages. auto 10 with console_only. Qed.

#[local] Hint Resolve console_only_truncateToCharLimit
  console_only_selectRelevantMessages : console_only.

Lemma console_only_buildOptimizedContext rnd history prompt :
  console_only (buildOptimizedContext rnd history prompt).
Proof. unfold buildOptimizedContext. auto 10 with console_only. Qed.

Lemma console_only_getContextStats rnd history prompt :
  console_only (getContextStats rnd history prompt).
Proof. unfold getContextStats. auto 10 with console_only. Qed.

(** ** The statistics accessor *)

Lemma characters_foldl (messages : list Message) (acc : Z) :
  foldl (λ sum msg, sum + Z.of_nat (String.length (content msg))) acc messages
  = acc + characters messages.
Proof.
  revert acc. induction messages as [|m messages IH]; intros acc; cbn.
  - lia.
  - rewrite IH. unfold characters. cbn. lia.
Qed.

(** The statistics, read off the code, with the selection and the
    budgeting it runs named. *)
Lemma getContextStats_value rnd history prompt w :
  value_of (getContextStats rnd history prompt) w =
    let maxChars := MAX_CONTEXT_CHARS (CONFIG w) in
    let selected := value_of (selectRelevantMessages rnd history prompt) w in
    let budgeted := value_of (truncateToCharLimit selected maxChars) w in
    {| totalMessages := length history;
       relevantMessages := length selected;
       includedMessages := length budgeted;
       totalChars := characters budgeted;
       utilizationPercent :=
         JsNumber.toFixed1
           (JsNumber.mul rnd (JsNumber.div rnd (characters budgeted) maxChars) 100) |}.
Proof.
  unfold getContextStats. run_monad.
  set (w1 := world_after (selectRelevantMessages rnd history prompt) w).
  assert (CONFIG w1 = CONFIG w) as Hw1
    by apply console_only_world, console_only_selectRelevantMessages.
  set (selected := value_of (selectRelevantMessages rnd history prompt) w).
  set (w2 := world_after _ w1).
  assert (CONFIG w2 = CONFIG w1) as Hw2
    by apply console_only_world, console_only_truncateToCharLimit.
  rewrite Hw2, Hw1.
  rewrite (console_only_value _ w1 w) by (apply console_only_truncateToCharLimit || done).
  rewrite characters_foldl. cbn zeta. by rewrite Z.add_0_l.
Qed.

Lemma toFixed1_finite (x : Q) :
  ∃ n : Z,
    0 ≤ n
    ∧ (Qabs x * 10 - (1 # 2) < inject_Z n <= Qabs x * 10 + (1 # 2))%Q
    ∧ JsNumber.toFixed1 (JsNumber.Finite x)
      = ((if Qlt_le_dec x 0 then "-" else "") ++ tenths n)%string.
Proof.
  exists (Qfloor (Qabs x * 10 + (1 # 2))).
  pose proof (Qabs_nonneg x) as Habs.
  pose proof (Qfloor_le (Qabs x * 10 + (1 # 2))) as Hle.
  pose proof (Qlt_floor (Qabs x * 10 + (1 # 2))) as Hlt.
  rewrite inject_Z_plus in Hlt.
  split; [|split; [split|done]].
  - apply (Qfloor_resp_le 0). lra.
  - change (inject_Z 1) with 1%Q in Hlt. lra.
  - done.
Qed.

Lemma one_digit (d : Z) : 0 ≤ d < 10 → String.length (pretty d) = 1%nat.
Proof.
  intros Hd.
  assert (d = 0 ∨ d = 1 ∨ d = 2 ∨ d = 3 ∨ d = 4 ∨ d = 5 ∨ d = 6 ∨ d = 7
          ∨ d = 8 ∨ d = 9) as Hcases by lia.
  repeat destruct Hcases as [->|Hcases]; try subst d; reflexivity.
Qed.

(** C9.  The statistics are: the size of the history, the number of
    messages selected, the number left after budgeting, the characters of
    those, and, for a non-zero budget, their percentage of
    [MAX_CONTEXT_CHARS] to the nearest tenth, written with one decimal
    place.  Computing them writes to the console only: [CONFIG] stays as
    it is and [buildOptimizedContext] returns afterwards what it returns
    without. *)
Theorem getContextStats_reports (rnd : Q → Q) (history : list Message)
    (prompt : string) (w : World) :
  let maxChars := MAX_CONTEXT_CHARS (CONFIG w) in
  let stats := value_of (getContextStats rnd history prompt) w in
  let selected := value_of (selectRelevantMessages rnd history prompt) w in
  let budgeted := value_of (truncateToCharLimit selected maxChars) w in
  let percent :=
    rnd (rnd (inject_Z (characters budgeted) / inject_Z maxChars) * inject_Z 100)%Q in
  totalMessages stats = length history
  ∧ relevantMessages stats = length selected
  ∧ includedMessages stats = length budgeted
  ∧ totalChars stats = characters budgeted
  ∧ (maxChars ≠ 0 →
     ∃ n : Z,
       0 ≤ n
       ∧ (Qabs percent * 10 - (1 # 2) < inject_Z n <= Qabs percent * 10 + (1 # 2))%Q
       ∧ utilizationPercent stats
         = ((if Qlt_le_dec percent 0 then "-" else "") ++ tenths n)%string
       ∧ String.length (pretty (n mod 10)) = 1%nat)
  ∧ CONFIG (world_after (getContextStats rnd history prompt) w) = CONFIG w
  ∧ value_of (buildOptimizedContext rnd history prompt)
      (world_after (getContextStats rnd history prompt) w)
    = value_of (buildOptimizedContext rnd history prompt) w.
Proof.
  intros maxChars stats selected budgeted percent.
  unfold stats. rewrite getContextStats_value. cbn zeta.
  fold maxChars selected budgeted.
  pose proof (console_only_world (getContextStats rnd history prompt) w
                (console_only_getContextStats _ _ _)) as [Hcfg _].
  repeat split; try done.
  - intros Hmax. cbn [utilizationPercent]. unfold JsNumber.div.
    destruct (Z.eqb_spec maxChars 0) as [?|_]; [done|]. cbn [JsNumber.mul].
    fold percent.
    destruct (toFixed1_finite percent) as (n & Hn & Hnear & Htext).
    exists n. repeat split; try done; try apply Hnear.
    apply one_digit, Z.mod_pos_bound. lia.
  - apply console_only_value; [apply console_only_buildOptimizedContext|done].
Qed.

Lemma getContextStats_reports_witness :
  ∃ n : Z,
    0 ≤ n
    ∧ utilizationPercent
        (value_of (getContextStats Examples.exact Examples.pizza_history "pizza dough")
           (Examples.start Examples.defaults))
      = tenths n.
Proof.
  destruct (getContextStats_reports Examples.exact Examples.pizza_history
              "pizza dough" (Examples.start Examples.defaults))
    as (_ & _ & _ & _ & Hpercent & _).
  destruct Hpercent as (n & Hn & _ & Htext & _); [done|].
  exists n. split; [exact Hn|]. exact Htext.
Defined.

(** ** More on lists and arrays *)

Lemma filter_none {A} (P : A → Prop) `{∀ x, Decision (P x)} (l : list A) :
  Forall (λ x, ¬ P x) l → filter P l = [].
Proof.
  induction 1 as [|x l Hx _ IH]; [done|]. by rewrite filter_cons, decide_False.
Qed.

Lemma filter_fmap_list {A B} (P : B → Prop) `{∀ y, Decision (P y)}
    (f : A → B) (l : list A) :
  filter P (f <$> l) = f <$> filter (λ x, P (f x)) l.
Proof.
  induction l as [|x l IH]; [done|].
  rewrite fmap_cons, !filter_cons, IH. by destruct (decide (P (f x))).
Qed.

Lemma slice_fmap {A B} (f : A → B) (start stop : Z) (l : list A) :
  JsArray.slice start stop (f <$> l) = f <$> JsArray.slice start stop l.
Proof. unfold JsArray.slice. by rewrite length_fmap, fmap_take, fmap_drop. Qed.

Lemma slice_0_take {A} (n : Z) (l : list A) :
  0 ≤ n → JsArray.slice 0 n l = take (Z.to_nat n) l.
Proof.
  intros Hn. rewrite slice_0. unfold JsArray.relative_index.
  destruct (Z.ltb_spec n 0); [lia|].
  destruct (decide (n ≤ Z.of_nat (length l))).
  - f_equal. lia.
  - rewrite !take_ge; [done|lia|lia].
Qed.

(** Sorting an array whose tail is in order and not before its head part
    sorts the head part and leaves the tail where it is. *)
Lemma sort_app_last {A} (comparefn : A → A → comparison) (l1 l2 : list A) :
  (∀ y x, y ∈ l1 → x ∈ l2 → may_precede comparefn y x) →
  StronglySorted (may_precede comparefn) l2 →
  JsArray.sort comparefn (l1 ++ l2) = JsArray.sort comparefn l1 ++ l2.
Proof.
  intros Hcross Hl2. unfold JsArray.sort. rewrite foldl_app.
  fold (JsArray.sort comparefn l1).
  assert (∀ y x, y ∈ JsArray.sort comparefn l1 → x ∈ l2 → may_precede comparefn y x)
    as Hacc.
  { intros y x Hy. apply Hcross. by rewrite <- (sort_perm comparefn l1). }
  clear Hcross. revert Hacc. generalize (JsArray.sort comparefn l1). clear l1.
  induction Hl2 as [|x l2 Hl2 IH Hx]; intros acc Hacc; cbn.
  - by rewrite app_nil_r.
  - rewrite sort_insert_last.
    + rewrite IH; [by rewrite <- app_assoc|].
      intros y z [Hy|Hy%list_elem_of_singleton]%elem_of_app Hz.
      * apply Hacc; [done|by right].
      * subst y. by apply (proj1 (Forall_forall _ _) Hx).
    + apply Forall_forall. intros y Hy. apply Hacc; [done|left].
Qed.

Lemma StronglySorted_reverse {A} (R : relation A) (l : list A) :
  StronglySorted (flip R) l → StronglySorted R (reverse l).
Proof.
  induction 1 as [|x l Hl IH Hx]; [constructor|].
  rewrite reverse_cons. apply StronglySorted_app_2; [|done|repeat constructor].
  intros y z Hy Hz%list_elem_of_singleton. subst z.
  rewrite elem_of_reverse in Hy. exact (proj1 (Forall_forall _ _) Hx y Hy).
Qed.

(** ** The keyword extractor: what is never a keyword *)

Lemma count_word_proto (o : JsObject.object) (word : string) :
  "__proto__"%string ∉ o.*1 → "__proto__"%string ∉ (count_word o word).*1.
Proof.
  intros Ho. unfold count_word, JsObject.set.
  destruct (String.eqb_spec word "__proto__") as [->|Hne]; [done|].
  rewrite update_keys. destruct (decide _); [done|].
  rewrite not_elem_of_app, list_elem_of_singleton. split; [done|congruence].
Qed.

Lemma wordFreq_proto (words : list string) (o : JsObject.object) :
  "__proto__"%string ∉ o.*1 → "__proto__"%string ∉ (foldl count_word o words).*1.
Proof.
  revert o. induction words as [|w words IH]; intros o Ho; [done|].
  cbn. by apply IH, count_word_proto.
Qed.

(** X3.  The word [__proto__] is never a keyword, however often the text
    has it: assigning a number to that key of the frequency object stores
    nothing. *)
Theorem extractKeywords_never_proto (cfg : Config) (text : string) :
  "__proto__"%string ∉ extractKeywords cfg text.
Proof.
  destruct (extractKeywords_sublist cfg text) as (ranked & Hperm & ->).
  intros Hin. rewrite fmap_take in Hin.
  apply (λ H, elem_of_sublist _ _ _ H (sublist_take _ _)) in Hin.
  rewrite Hperm in Hin. revert Hin. apply wordFreq_proto, not_elem_of_nil.
Qed.







Lemma toLowerCase_idempotent (s : string) :
  toLowerCase (toLowerCase s) = toLowerCase s.
Proof. apply lower_fixed, toLowerCase_lower. Qed.

Lemma extractKeywords_toLowerCase (cfg : Config) (text : string) :
  extractKeywords cfg (toLowerCase text) = extractKeywords cfg text.
Proof. unfold extractKeywords, tokens. by rewrite toLowerCase_idempotent. Qed.

(** ** The relevance scorer: substrings *)

Lemma prefix_cons (c : ascii) (k s : string) :
  String.prefix (String c k) (String c s) = String.prefix k s.
Proof. cbn. by destruct (ascii_dec c c). Qed.

Lemma includes_prefix (s k : string) :
  String.prefix k s = true → includes s k = true.
Proof. intros H. destruct s; cbn [includes]; by rewrite H. Qed.

Lemma includes_cons (c : ascii) (s k : string) :
  includes s k = true → includes (String c s) k = true.
Proof. intros H. cbn [includes]. rewrite H. apply orb_true_r. Qed.

Lemma split_whitespace_starts (s : string) :
  starts_with_space s = true → ∃ rest, split_whitespace s = EmptyString :: rest.
Proof.
  induction s as [|c s IH]; [done|]. cbn. intros ->.
  destruct (starts_with_space s); [by apply IH|by eexists].
Qed.

(** The pieces between the white space of a text whose punctuation is
    blanked out are pieces of the text itself: the first one starts it, and
    each of the others occurs in it. *)
Lemma split_replace_includes (s : string) :
  ∃ piece rest,
    split_whitespace (replace_punctuation s) = piece :: rest
    ∧ String.prefix piece s = true
    ∧ Forall (λ p, includes s p = true) rest.
Proof.
  unfold replace_punctuation.
  induction s as [|c s (piece & rest & Hsplit & Hprefix & Hrest)].
  - exists EmptyString, []. by repeat split.
  - cbn [string_map split_whitespace]. rewrite Hsplit.
    assert (Forall (λ p, includes (String c s) p = true) (piece :: rest)) as Hall.
    { constructor.
      - by apply includes_cons, includes_prefix.
      - eapply Forall_impl; [exact Hrest|]. intros p. apply includes_cons. }
    destruct (is_space_char (if is_word_char c || is_space_char c then c else " "%char))
      eqn:Hspace.
    + destruct (starts_with_space (string_map _ s)) eqn:Hstarts.
      * apply split_whitespace_starts in Hstarts as [rest' Hstarts].
        rewrite Hsplit in Hstarts. injection Hstarts as -> ->.
        exists EmptyString, rest'. split; [done|]. split; [done|].
        by apply Forall_inv_tail in Hall.
      * exists EmptyString, (piece :: rest). by repeat split.
    + assert ((if is_word_char c || is_space_char c then c else " "%char) = c) as ->.
      { destruct (is_word_char c || is_space_char c); [done|]. discriminate Hspace. }
      exists (String c piece), rest. split; [done|]. split.
      * by rewrite prefix_cons.
      * by apply Forall_inv_tail in Hall.
Qed.

Lemma tokens_included (s token : string) :
  token ∈ split_whitespace (replace_punctuation s) → includes s token = true.
Proof.
  destruct (split_replace_includes s) as (piece & rest & -> & Hprefix & Hrest).
  intros [->|Hin]%elem_of_cons; [by apply includes_prefix|].
  by apply (proj1 (Forall_forall _ _) Hrest).
Qed.

Lemma matches_message_includes cfg msg keyword :
  matches_message cfg msg keyword = includes (toLowerCase (content msg)) keyword.
Proof.
  unfold matches_message, keyword_matches.
  destruct (bool_decide _) eqn:Hword; [|done]. cbn.
  apply bool_decide_eq_true in Hword.
  apply elem_of_list_to_set, list_elem_of_filter in Hword as [_ Hword].
  symmetry. by apply tokens_included.
Qed.

(** X5.  The set of the message's words adds no match: a keyword matches a
    message exactly when it occurs in the lowercased content.  So the
    score does not depend on the configuration: [MIN_KEYWORD_LENGTH], the
    one value the scorer reads, has no effect on it. *)
Theorem calculateRelevance_substring (rnd : Q → Q) (cfg cfg' : Config)
    (msg : Message) (keywords : list string) :
  matching_keywords cfg msg keywords
  = filter (λ keyword, includes (toLowerCase (content msg)) keyword) keywords
  ∧ calculateRelevance rnd cfg msg keywords
    = calculateRelevance rnd cfg' msg keywords.
Proof.
  assert (∀ c, matching_keywords c msg keywords
               = filter (λ keyword, includes (toLowerCase (content msg)) keyword)
                   keywords) as Hsame.
  { intros c. unfold matching_keywords. apply list_filter_iff. intros keyword.
    by rewrite matches_message_includes. }
  split; [apply Hsame|].
  by rewrite !calculateRelevance_value, !Hsame.
Qed.

(** X6.  The score does not depend on the order of the keywords. *)
Theorem calculateRelevance_permutation (rnd : Q → Q) (cfg : Config)
    (msg : Message) (keywords keywords' : list string) :
  keywords ≡ₚ keywords' →
  calculateRelevance rnd cfg msg keywords = calculateRelevance rnd cfg msg keywords'.
Proof.
  intros Hperm. rewrite !calculateRelevance_value.
  assert (length (matching_keywords cfg msg keywords)
          = length (matching_keywords cfg msg keywords')) as ->.
  { unfold matching_keywords. by rewrite Hperm. }
  rewrite (Permutation_length Hperm).
  destruct keywords, keywords'; try done.
  - by apply Permutation_nil_cons in Hperm.
  - symmetry in Hperm. by apply Permutation_nil_cons in Hperm.
Qed.

Lemma calculateRelevance_permutation_witness :
  calculateRelevance Examples.exact Examples.defaults
    (Examples.says user 1 "Any pizza recipes?") ["pizza"; "dough"]%string
  = calculateRelevance Examples.exact Examples.defaults
      (Examples.says user 1 "Any pizza recipes?") ["dough"; "pizza"]%string.
Proof.
  apply (calculateRelevance_permutation Examples.exact Examples.defaults
           (Examples.says user 1 "Any pizza recipes?")
           ["pizza"; "dough"]%string ["dough"; "pizza"]%string).
  apply Permutation_swap.
Defined.

Lemma calculateRelevance_score rnd cfg msg keywords :
  calculateRelevance rnd cfg msg keywords
  = JsNumber.Finite (score_of rnd cfg keywords msg).
Proof. rewrite calculateRelevance_value. by destruct keywords. Qed.

(** ** The selector: which older messages it keeps *)

Section Ranking.
Context {A : Type} (f : A → Q).

Lemma sort_insert_by_score (x : A) (acc : list A) :
  StronglySorted (ranked_above f) acc →
  StronglySorted (ranked_above f) (JsArray.sort_insert (by_score f) x acc).
Proof.
  induction 1 as [|y acc Hacc IH Hy]; cbn.
  - repeat constructor.
  - unfold by_score at 1, JsArray.sign_Q.
    destruct (Qcompare_spec (f x - f y) 0) as [Heq|Hlt|Hgt].
    + constructor; [done|]. rewrite sort_insert_perm. constructor; [|done].
      unfold ranked_above. lra.
    + constructor; [done|]. rewrite sort_insert_perm. constructor; [|done].
      unfold ranked_above. lra.
    + constructor; [by constructor|]. constructor; [unfold ranked_above; lra|].
      eapply Forall_impl; [exact Hy|]. unfold ranked_above. intros z Hz. lra.
Qed.

(** An entry is inserted behind the entries of its own score. *)
Lemma sort_insert_ties (q : Q) (x : A) (acc : list A) :
  StronglySorted (ranked_above f) acc →
  filter (λ a, scoring f q a) (JsArray.sort_insert (by_score f) x acc)
  = filter (λ a, scoring f q a) acc ++ filter (λ a, scoring f q a) [x].
Proof.
  induction 1 as [|y acc Hacc IH Hy]; [done|]. cbn [JsArray.sort_insert].
  unfold by_score at 1, JsArray.sign_Q.
  assert (filter (λ a, scoring f q a) (y :: JsArray.sort_insert (by_score f) x acc)
          = filter (λ a, scoring f q a) (y :: acc)
            ++ filter (λ a, scoring f q a) [x]) as Hstay.
  { rewrite !(filter_cons _ y), IH. by destruct (decide _). }
  destruct (Qcompare_spec (f x - f y) 0) as [Heq|Hlt|Hgt]; [done|done|].
  rewrite (filter_cons _ x), (filter_cons _ x []), filter_nil.
  destruct (decide (scoring f q x)) as [Hx|Hx]; [|by rewrite app_nil_r].
  rewrite (filter_none _ (y :: acc)); [done|].
  apply Is_true_true, Qeq_bool_iff in Hx.
  assert (∀ z, (f z <= f y)%Q → ¬ scoring f q z) as Hbelow.
  { intros z Hz Hq. apply Is_true_true, Qeq_bool_iff in Hq. lra. }
  constructor; [apply Hbelow; lra|].
  eapply Forall_impl; [exact Hy|]. intros z Hz. by apply Hbelow.
Qed.

(** Sorting by descending score puts the entries in that order and keeps
    the entries of one score in the order they had. *)
Lemma sort_by_score (q : Q) (l : list A) :
  StronglySorted (ranked_above f) (JsArray.sort (by_score f) l)
  ∧ filter (λ a, scoring f q a) (JsArray.sort (by_score f) l)
    = filter (λ a, scoring f q a) l.
Proof.
  unfold JsArray.sort.
  assert (∀ acc,
            StronglySorted (ranked_above f) acc →
            let sorted :=
              foldl (λ sorted x, JsArray.sort_insert (by_score f) x sorted) acc l in
            StronglySorted (ranked_above f) sorted
            ∧ filter (λ a, scoring f q a) sorted
              = filter (λ a, scoring f q a) acc ++ filter (λ a, scoring f q a) l)
    as Hfold.
  { induction l as [|x l IH]; intros acc Hacc; cbn.
    - by rewrite app_nil_r.
    - destruct (IH (JsArray.sort_insert (by_score f) x acc)) as [Hsorted Hties];
        [by apply sort_insert_by_score|].
      split; [done|]. rewrite Hties, sort_insert_ties by done.
      by rewrite <- app_assoc, <- filter_app. }
  apply (Hfold []). constructor.
Qed.
End Ranking.

(** The older messages the selector keeps, with the scores as
    rationals. *)
Lemma relevantOlder_ranked rnd cfg keywords (older : list Message) :
  message <$>
    JsArray.slice 0 (MAX_RELEVANT_OLDER cfg)
      (JsArray.sort (λ a b, JsNumber.minus_sign (score b) (score a))
         (filter (λ item, JsNumber.ge (score item) (RELEVANCE_THRESHOLD cfg))
            ((λ msg, {| message := msg;
                        score := calculateRelevance rnd cfg msg keywords |})
             <$> older)))
  = JsArray.slice 0 (MAX_RELEVANT_OLDER cfg)
      (JsArray.sort (by_score (score_of rnd cfg keywords))
         (filter (λ msg, reaches (RELEVANCE_THRESHOLD cfg)
                           (score_of rnd cfg keywords msg)) older)).
Proof.
  set (f := score_of rnd cfg keywords).
  rewrite (list_fmap_ext _ (λ msg, {| message := msg; score := JsNumber.Finite (f msg) |})
             older) by (intros; by rewrite ?calculateRelevance_score).
  rewrite filter_fmap_list, sort_fmap, slice_fmap, <- list_fmap_compose.
  rewrite (list_fmap_ext (message ∘ _) id) by done.
  by rewrite list_fmap_id.
Qed.

(** The selector's output as a multiset: the older messages it keeps and
    the recent window, [k] being where the window starts. *)
Lemma selectRelevantMessages_perm rnd history prompt w :
  let cfg := CONFIG w in
  let f := score_of rnd cfg (extractKeywords cfg prompt) in
  let k := JsArray.relative_index (length history) (- MIN_RECENT_MESSAGES cfg) in
  value_of (selectRelevantMessages rnd history prompt) w
  ≡ₚ JsArray.slice 0 (MAX_RELEVANT_OLDER cfg)
       (JsArray.sort (by_score f)
          (filter (λ msg, reaches (RELEVANCE_THRESHOLD cfg) (f msg))
             (take k history)))
     ++ drop k history.
Proof.
  intros cfg f k. rewrite selectRelevantMessages_value. cbn zeta. fold cfg k.
  destruct (take k history) as [|m0 older] eqn:Holder.
  - rewrite filter_nil. change (JsArray.sort _ []) with (@nil Message).
    by rewrite slice_0, take_nil.
  - rewrite sort_perm, relevantOlder_ranked. done.
Qed.

Lemma selectRelevantMessages_submseteq rnd history prompt w :
  value_of (selectRelevantMessages rnd history prompt) w ⊆+ history.
Proof.
  rewrite selectRelevantMessages_perm. cbn zeta.
  set (k := JsArray.relative_index _ _).
  rewrite <- (take_drop k history) at 3.
  apply submseteq_app; [|done].
  rewrite slice_0.
  etransitivity; [apply sublist_submseteq, sublist_take|].
  rewrite sort_perm. apply sublist_submseteq, sublist_filter.
Qed.

Lemma selectRelevantMessages_sorted rnd history prompt w :
  chronological history →
  chronological (value_of (selectRelevantMessages rnd history prompt) w).
Proof.
  intros Hhistory. rewrite selectRelevantMessages_value. cbn zeta.
  destruct (take _ history).
  - eapply chronological_suffix; [apply suffix_drop|done].
  - apply sort_by_timestamp_chronological.
Qed.

Lemma selectRelevantMessages_nonempty rnd history prompt w :
  0 < MIN_RECENT_MESSAGES (CONFIG w) → history ≠ [] →
  value_of (selectRelevantMessages rnd history prompt) w ≠ [].
Proof.
  intros Hrecent Hhistory Hnil.
  pose proof (selectRelevantMessages_perm rnd history prompt w) as Hperm.
  cbn zeta in Hperm. rewrite Hnil in Hperm.
  symmetry in Hperm. apply Permutation_nil_r, app_eq_nil in Hperm as [_ Hdrop].
  apply (f_equal length) in Hdrop. rewrite length_drop in Hdrop.
  rewrite relative_index_neg in Hdrop by done.
  destruct history; [done|]. cbn in Hdrop. lia.
Qed.

(** X7.  With a positive window [n] and a non-negative
    [MAX_RELEVANT_OLDER], the selector returns the last [n] messages and,
    of the messages before them whose score reaches the threshold, the
    first [MAX_RELEVANT_OLDER] in a ranking by descending score in which
    messages of equal score keep the order of the history. *)
Theorem selectRelevantMessages_ranking (rnd : Q → Q) (history : list Message)
    (prompt : string) (w : World) :
  let cfg := CONFIG w in
  let n := Z.to_nat (MIN_RECENT_MESSAGES cfg) in
  let f := score_of rnd cfg (extractKeywords cfg prompt) in
  let relevant :=
    filter (λ msg, reaches (RELEVANCE_THRESHOLD cfg) (f msg))
      (take (length history - n) history) in
  0 < MIN_RECENT_MESSAGES cfg →
  0 ≤ MAX_RELEVANT_OLDER cfg →
  ∃ ranked : list Message,
    ranked ≡ₚ relevant
    ∧ StronglySorted (ranked_above f) ranked
    ∧ (∀ q, filter (λ msg, scoring f q msg) ranked
            = filter (λ msg, scoring f q msg) relevant)
    ∧ value_of (selectRelevantMessages rnd history prompt) w
      ≡ₚ take (Z.to_nat (MAX_RELEVANT_OLDER cfg)) ranked ++ last_entries n history.
Proof.
  intros cfg n f relevant Hrecent Holder.
  exists (JsArray.sort (by_score f) relevant).
  split; [apply sort_perm|]. split; [apply (sort_by_score f 0)|].
  split; [intros q; apply (sort_by_score f q)|].
  rewrite selectRelevantMessages_perm. cbn zeta. fold cfg f.
  rewrite (last_entries_drop _ _ Hrecent), slice_0_take by done.
  rewrite relative_index_neg by done. done.
Qed.

Lemma selectRelevantMessages_ranking_witness :
  ∃ ranked : list Message,
    value_of
      (selectRelevantMessages Examples.exact Examples.pizza_history
         "a good pizza recipe")
      (Examples.start Examples.defaults)
    ≡ₚ take 3 ranked ++ last_entries 3 Examples.pizza_history.
Proof.
  destruct (selectRelevantMessages_ranking Examples.exact Examples.pizza_history
              "a good pizza recipe" (Examples.start Examples.defaults))
    as (ranked & _ & _ & _ & Hout).
  - reflexivity.
  - discriminate.
  - exists ranked. exact Hout.
Defined.

(** X8.  With a positive window [n] and a non-negative
    [MAX_RELEVANT_OLDER], the selector's output holds the last [n]
    messages of the history, has at most [n + MAX_RELEVANT_OLDER]
    messages, and any message in it outside the window lies before the
    window and has a score that reaches the threshold. *)
Theorem selectRelevantMessages_bounds (rnd : Q → Q) (history : list Message)
    (prompt : string) (w : World) :
  let cfg := CONFIG w in
  let n := Z.to_nat (MIN_RECENT_MESSAGES cfg) in
  let f := score_of rnd cfg (extractKeywords cfg prompt) in
  let out := value_of (selectRelevantMessages rnd history prompt) w in
  0 < MIN_RECENT_MESSAGES cfg →
  0 ≤ MAX_RELEVANT_OLDER cfg →
  last_entries n history ⊆+ out
  ∧ (length out ≤ n + Z.to_nat (MAX_RELEVANT_OLDER cfg))%nat
  ∧ (∀ msg, msg ∈ out →
       msg ∈ last_entries n history
       ∨ (msg ∈ take (length history - n) history
          ∧ reaches (RELEVANCE_THRESHOLD cfg) (f msg) = true)).
Proof.
  intros cfg n f out Hrecent Holder.
  pose proof (selectRelevantMessages_perm rnd history prompt w) as Hperm.
  cbn zeta in Hperm. fold cfg f out in Hperm.
  rewrite (last_entries_drop _ _ Hrecent), slice_0_take in Hperm by done.
  rewrite relative_index_neg in Hperm by done. fold n in Hperm.
  split; [|split].
  - rewrite Hperm. apply submseteq_inserts_l. done.
  - rewrite Hperm, length_app, length_take.
    unfold last_entries. rewrite length_drop. lia.
  - intros msg Hmsg. rewrite Hperm in Hmsg.
    apply elem_of_app in Hmsg as [Hkept|Hwindow]; [right|by left].
    apply elem_of_take in Hkept as (i & Hi & _).
    apply list_elem_of_lookup_2 in Hi. rewrite sort_perm in Hi.
    apply list_elem_of_filter in Hi as [Hreach Hin].
    split; [done|]. by apply Is_true_true.
Qed.

Lemma selectRelevantMessages_bounds_witness :
  (length
     (value_of
        (selectRelevantMessages Examples.exact Examples.pizza_history
           "a good pizza recipe")
        (Examples.start Examples.defaults))
   ≤ 3 + 3)%nat.
Proof.
  destruct (selectRelevantMessages_bounds Examples.exact Examples.pizza_history
              "a good pizza recipe" (Examples.start Examples.defaults))
    as (_ & Hlength & _).
  - reflexivity.
  - discriminate.
  - exact Hlength.
Defined.

(** For a chronological history and a positive window, the selector's
    output by its two parts: the older messages it keeps, sorted, and
    then the window. *)
Lemma selectRelevantMessages_parts rnd history prompt w :
  let cfg := CONFIG w in
  let n := Z.to_nat (MIN_RECENT_MESSAGES cfg) in
  chronological history →
  0 < MIN_RECENT_MESSAGES cfg →
  ∃ kept : list Message,
    kept ⊆+ take (length history - n) history
    ∧ value_of (selectRelevantMessages rnd history prompt) w
      = JsArray.sort by_timestamp kept ++ last_entries n history.
Proof.
  intros cfg n Hhistory Hrecent.
  rewrite selectRelevantMessages_value. cbn zeta. fold cfg.
  rewrite (last_entries_drop _ _ Hrecent), relative_index_neg by done. fold n.
  set (k := (length history - n)%nat).
  apply Sorted_StronglySorted in Hhistory; [|intros a b c; lia].
  rewrite <- (take_drop k history) in Hhistory.
  destruct (take k history) as [|m0 older] eqn:Holder.
  - by exists [].
  - rewrite <- Holder in *. clear Holder m0 older.
    set (kept := message <$> _).
    assert (kept ⊆+ take k history) as Hkept by apply kept_older_submseteq.
    exists kept. split; [done|].
    apply (sort_app_last by_timestamp).
    + intros y x Hy Hx. apply by_timestamp_precede.
      eapply (StronglySorted_app_1_elem_of _ _ _ _ _ Hhistory); [|done].
      by eapply elem_of_submseteq.
    + apply StronglySorted_app_1_r in Hhistory.
      eapply StronglySorted_weaken; [|exact Hhistory].
      intros a b _ _. by rewrite by_timestamp_precede.
Qed.

(** X9.  For a chronological history and a positive window [n], the
    selector's output ends with the last [n] messages of the history, as
    they are; before them come the older messages it keeps, in
    chronological order. *)
Theorem selectRelevantMessages_window (rnd : Q → Q) (history : list Message)
    (prompt : string) (w : World) :
  let n := Z.to_nat (MIN_RECENT_MESSAGES (CONFIG w)) in
  chronological history →
  0 < MIN_RECENT_MESSAGES (CONFIG w) →
  ∃ kept : list Message,
    value_of (selectRelevantMessages rnd history prompt) w
    = kept ++ last_entries n history
    ∧ kept ⊆+ take (length history - n) history
    ∧ chronological kept.
Proof.
  intros n Hhistory Hrecent.
  destruct (selectRelevantMessages_parts rnd history prompt w Hhistory Hrecent)
    as (kept & Hkept & Hout).
  exists (JsArray.sort by_timestamp kept). split; [done|]. split.
  - by rewrite sort_perm.
  - apply sort_by_timestamp_chronological.
Qed.

Lemma selectRelevantMessages_window_witness :
  ∃ kept : list Message,
    value_of
      (selectRelevantMessages Examples.exact Examples.pizza_history
         "a good pizza recipe")
      (Examples.start Examples.defaults)
    = kept ++ last_entries 3 Examples.pizza_history.
Proof.
  destruct (selectRelevantMessages_window Examples.exact Examples.pizza_history
              "a good pizza recipe" (Examples.start Examples.defaults))
    as (kept & Hout & _).
  - repeat constructor; cbn; lia.
  - reflexivity.
  - exists kept. exact Hout.
Defined.

Lemma sorted_submseteq_sublist (l h : list Message) :
  StronglySorted (λ a b, timestamp a < timestamp b) h →
  l ⊆+ h → chronological l → l `sublist_of` h.
Proof.
  intros Hh. revert l.
  induction Hh as [|x h Hh IH Hx]; intros l Hsub Hl.
  - apply submseteq_nil_r in Hsub. by subst.
  - apply submseteq_cons_r in Hsub as [Hsub|(k & Hperm & Hsub)].
    + apply sublist_cons. by apply IH.
    + assert (Forall (λ y, timestamp x < timestamp y) k) as Hk.
      { apply Forall_forall. intros y Hy.
        apply (proj1 (Forall_forall _ _) Hx). by eapply elem_of_submseteq. }
      destruct l as [|y l]; [by apply Permutation_nil_cons in Hperm|].
      apply Sorted_StronglySorted in Hl; [|intros a b c; lia].
      apply StronglySorted_inv in Hl as [Hl Hy].
      assert (y = x) as ->.
      { assert (y ∈ x :: k) as Hin by (rewrite <- Hperm; left).
        apply elem_of_cons in Hin as [?|Hin]; [done|]. exfalso.
        pose proof (proj1 (Forall_forall _ _) Hk y Hin) as Hlt. cbn beta in Hlt.
        assert (x ∈ y :: l) as Hxl by (rewrite Hperm; left).
        apply elem_of_cons in Hxl as [->|Hxl]; [lia|].
        pose proof (proj1 (Forall_forall _ _) Hy x Hxl) as Hle. cbn beta in Hle. lia. }
      apply Permutation_cons_inv in Hperm.
      apply sublist_skip, IH; [by rewrite Hperm|].
      by apply StronglySorted_Sorted.
Qed.

(** X10.  When the timestamps of the history increase strictly, the
    selector's output is a subsequence of the history: it keeps the
    order of the history and repeats no message. *)
Theorem selectRelevantMessages_subsequence (rnd : Q → Q) (history : list Message)
    (prompt : string) (w : World) :
  StronglySorted (λ a b, timestamp a < timestamp b) history →
  value_of (selectRelevantMessages rnd history prompt) w `sublist_of` history.
Proof.
  intros Hhistory. apply sorted_submseteq_sublist; [done| |].
  - apply selectRelevantMessages_submseteq.
  - apply selectRelevantMessages_sorted.
    apply StronglySorted_Sorted.
    eapply StronglySorted_weaken; [|exact Hhistory]. intros a b _ _. cbn beta. lia.
Qed.

Lemma selectRelevantMessages_subsequence_witness :
  value_of
    (selectRelevantMessages Examples.exact Examples.pizza_history
       "a good pizza recipe")
    (Examples.start Examples.defaults)
  `sublist_of` Examples.pizza_history.
Proof.
  apply (selectRelevantMessages_subsequence Examples.exact Examples.pizza_history
           "a good pizza recipe" (Examples.start Examples.defaults)).
  repeat constructor; cbn; lia.
Defined.

(** X11.  Letter case plays no part in the selection: the selector does
    the same for a prompt and for the prompt in lower case, and a message
    scores the same as the message in lower case. *)
Theorem selectRelevantMessages_case_insensitive (rnd : Q → Q)
    (history : list Message) (prompt : string) (w : World) (msg : Message)
    (keywords : list string) :
  selectRelevantMessages rnd history (toLowerCase prompt) w
  = selectRelevantMessages rnd history prompt w
  ∧ calculateRelevance rnd (CONFIG w)
      {| role := role msg; content := toLowerCase (content msg);
         timestamp := timestamp msg |} keywords
    = calculateRelevance rnd (CONFIG w) msg keywords.
Proof.
  split.
  - unfold selectRelevantMessages.
    destruct (length history =? 0)%nat; [done|].
    unfold bind at 1 3, read_config. cbn [id].
    by rewrite extractKeywords_toLowerCase.
  - unfold calculateRelevance. cbn [content].
    by rewrite toLowerCase_idempotent.
Qed.

(** ** The budgeter: where it cuts *)

(** The loop, run from a state that satisfies its invariant: what it
    returns, what it logs, and why it stopped. *)
Lemma truncate_loop_run messages maxChars n totalChars result w :
  (n ≤ length messages)%nat →
  result = drop n messages →
  totalChars = cost result →
  (cost result ≤ maxChars ∨ (length result ≤ 1)%nat) →
  ∃ k, (k ≤ n)%nat
    ∧ truncate_loop messages maxChars n totalChars result w
      = (drop k messages,
         {| CONFIG := CONFIG w;
            console := console w ++
              match k with
              | O => []
              | S _ => [TruncatedAt (length (drop k messages)) (cost (drop k messages))]
              end |})
    ∧ ((0 < n)%nat ∨ result ≠ [] → (k < length messages)%nat)
    ∧ (cost (drop k messages) ≤ maxChars ∨ (length (drop k messages) ≤ 1)%nat)
    ∧ (∀ j, k = S j → cost (drop j messages) > maxChars).
Proof.
  revert totalChars result w.
  induction n as [|i IH]; intros totalChars result w Hn Hres Htot Hinv.
  - exists 0%nat. cbn. subst result. rewrite drop_0 in *.
    split; [lia|]. split; [destruct w; cbn; by rewrite app_nil_r|].
    split; [|split; [done|done]].
    intros [?|Hne]; [lia|]. destruct messages; [done|cbn; lia].
  - destruct (lookup_lt_is_Some_2 messages i) as [msg Hmsg]; [lia|].
    pose proof (drop_S _ _ _ Hmsg) as Hdrop.
    cbn [truncate_loop]. rewrite Hmsg.
    destruct (bool_decide (totalChars + msgSize msg > maxChars)
              && bool_decide (0 < length result)%nat) eqn:Hcond.
    + exists (S i). subst result totalChars.
      apply andb_true_iff in Hcond as [Hover Hlen].
      apply bool_decide_eq_true in Hover, Hlen. rewrite length_drop in Hlen.
      split; [lia|]. split; [done|]. split; [intros _; lia|]. split; [done|].
      intros j [= <-]. rewrite Hdrop, cost_cons. lia.
    + destruct (IH (totalChars + msgSize msg) (msg :: result) w)
        as (k & Hk & Hv & Hne & Hc & Hmax).
      * lia.
      * by rewrite Hdrop, Hres.
      * rewrite cost_cons. lia.
      * apply andb_false_iff in Hcond as [Hc|Hc]; apply bool_decide_eq_false in Hc.
        -- left. rewrite cost_cons. lia.
        -- right. cbn. lia.
      * exists k. split; [lia|]. split; [done|]. split; [|done].
        intros _. apply Hne. by right.
Qed.

Lemma truncateToCharLimit_run messages maxChars w :
  ∃ k, stops_at messages maxChars k
    ∧ truncateToCharLimit messages maxChars w
      = (drop k messages,
         {| CONFIG := CONFIG w;
            console := console w ++ truncated_line messages (drop k messages) |}).
Proof.
  destruct (truncate_loop_run messages maxChars (length messages) 0 [] w)
    as (k & Hk & Hrun & Hne & Hc & Hmax).
  - done.
  - by rewrite drop_all.
  - done.
  - right. cbn. lia.
  - exists k. split.
    + split; [done|]. split; [|done].
      intros Hm. apply Hne. left. destruct messages; [done|cbn; lia].
    + unfold truncateToCharLimit. rewrite Hrun. do 3 f_equal.
      unfold truncated_line. rewrite length_drop.
      destruct k; [rewrite decide_False by lia; done|].
      rewrite decide_True; [done|].
      assert (S k < length messages)%nat; [|lia].
      apply Hne. left. lia.
Qed.

(** A longer suffix costs more. *)
Lemma cost_drop_le (messages : list Message) (j k : nat) :
  (j ≤ k)%nat → cost (drop k messages) ≤ cost (drop j messages).
Proof.
  intros Hjk. replace k with (j + (k - j))%nat by lia.
  rewrite <- drop_drop.
  rewrite <- (take_drop (k - j) (drop j messages)) at 2.
  rewrite cost_app. pose proof (cost_nonneg (take (k - j) (drop j messages))). lia.
Qed.

Lemma stops_at_monotone messages maxChars maxChars' k k' :
  maxChars ≤ maxChars' →
  stops_at messages maxChars k → stops_at messages maxChars' k' → (k' ≤ k)%nat.
Proof.
  intros HB (Hk & Hne & Hc & Hmax) (Hk' & Hne' & Hc' & Hmax').
  destruct (decide (k' ≤ k)%nat) as [|Hgt]; [done|]. exfalso.
  destruct k' as [|j]; [lia|].
  specialize (Hmax' j eq_refl).
  pose proof (cost_drop_le messages k j ltac:(lia)) as Hle.
  destruct Hc as [Hc|Hc]; [lia|].
  rewrite length_drop in Hc.
  assert (S j < length messages)%nat; [|lia].
  apply Hne'. intros ->. cbn in Hk'. lia.
Qed.

(** There is one place to cut. *)
Lemma stops_at_unique messages maxChars k k' :
  stops_at messages maxChars k → stops_at messages maxChars k' → k = k'.
Proof.
  intros H H'.
  pose proof (stops_at_monotone messages maxChars maxChars k k' ltac:(lia) H H').
  pose proof (stops_at_monotone messages maxChars maxChars k' k ltac:(lia) H' H).
  lia.
Qed.

Lemma truncateToCharLimit_value messages maxChars w k :
  stops_at messages maxChars k →
  value_of (truncateToCharLimit messages maxChars) w = drop k messages.
Proof.
  intros Hk.
  destruct (truncateToCharLimit_run messages maxChars w) as (k' & Hk' & Hrun).
  unfold value_of. rewrite Hrun. cbn.
  by rewrite (stops_at_unique _ _ _ _ Hk Hk').
Qed.

Lemma truncateToCharLimit_nonempty messages maxChars w :
  messages ≠ [] → value_of (truncateToCharLimit messages maxChars) w ≠ [].
Proof.
  intros Hne.
  destruct (truncateToCharLimit_run messages maxChars w)
    as (k & (_ & Hk & _) & Hrun).
  unfold value_of. rewrite Hrun. cbn [fst]. intros Hnil.
  apply (f_equal length) in Hnil. rewrite length_drop in Hnil.
  specialize (Hk Hne). cbn in Hnil. lia.
Qed.

(** X12.  The budgeter drops nothing it could keep: either it returns all
    messages, or what it returns is not empty and, together with the
    newest message it drops, costs more than the budget. *)
Theorem truncateToCharLimit_maximal (messages : list Message) (maxChars : Z)
    (w : World) :
  let out := value_of (truncateToCharLimit messages maxChars) w in
  out = messages
  ∨ ∃ older next,
      messages = older ++ next :: out
      ∧ out ≠ []
      ∧ msgSize next + cost out > maxChars.
Proof.
  intros out.
  destruct (truncateToCharLimit_run messages maxChars w)
    as (k & (Hk & Hne & Hc & Hmax) & Hrun).
  assert (out = drop k messages) as -> by (unfold out, value_of; by rewrite Hrun).
  destruct k as [|j]; [left; by rewrite drop_0|right].
  assert (S j < length messages)%nat as Hlt.
  { apply Hne. intros ->. cbn in Hk. lia. }
  destruct (lookup_lt_is_Some_2 messages j) as [next Hnext]; [lia|].
  exists (take j messages), next. split; [|split].
  - rewrite <- (drop_S _ _ _ Hnext). by rewrite take_drop.
  - intros Hnil. apply (f_equal length) in Hnil. rewrite length_drop in Hnil.
    cbn in Hnil. lia.
  - specialize (Hmax j eq_refl). by rewrite (drop_S _ _ _ Hnext), cost_cons in Hmax.
Qed.

(** X13.  The budgeter returns all the messages exactly when together
    they cost no more than the budget, or there is at most one. *)
Theorem truncateToCharLimit_whole (messages : list Message) (maxChars : Z)
    (w : World) :
  value_of (truncateToCharLimit messages maxChars) w = messages
  ↔ cost messages ≤ maxChars ∨ (length messages ≤ 1)%nat.
Proof.
  destruct (truncateToCharLimit_run messages maxChars w)
    as (k & (Hk & Hne & Hc & Hmax) & Hrun).
  unfold value_of. rewrite Hrun. cbn [fst].
  split.
  - intros Heq. by rewrite Heq in Hc.
  - intros Hfit. destruct k as [|j]; [by rewrite drop_0|]. exfalso.
    specialize (Hmax j eq_refl).
    pose proof (cost_drop_le messages 0 j ltac:(lia)) as Hle.
    rewrite drop_0 in Hle.
    destruct Hfit as [Hfit|Hfit]; [lia|].
    assert (S j < length messages)%nat; [|lia].
    apply Hne. intros ->. cbn in Hk. lia.
Qed.

(** X14.  The budgeter writes one line to the console when it drops a
    message, with the number and the cost of the messages it returns, and
    nothing when it returns them all. *)
Theorem truncateToCharLimit_log (messages : list Message) (maxChars : Z)
    (w : World) :
  let out := value_of (truncateToCharLimit messages maxChars) w in
  console (world_after (truncateToCharLimit messages maxChars) w)
  = console w ++
    if decide (length out < length messages)%nat
    then [TruncatedAt (length out) (cost out)]
    else [].
Proof.
  intros out.
  destruct (truncateToCharLimit_run messages maxChars w) as (k & _ & Hrun).
  unfold out, value_of, world_after. by rewrite Hrun.
Qed.

(** X15.  A larger budget keeps at least the same messages: the result
    for the smaller budget is a suffix of the result for the larger. *)
Theorem truncateToCharLimit_budget_monotone (messages : list Message)
    (maxChars maxChars' : Z) (w w' : World) :
  maxChars ≤ maxChars' →
  value_of (truncateToCharLimit messages maxChars) w
  `suffix_of` value_of (truncateToCharLimit messages maxChars') w'.
Proof.
  intros HB.
  destruct (truncateToCharLimit_run messages maxChars w) as (k & Hk & Hrun).
  destruct (truncateToCharLimit_run messages maxChars' w') as (k' & Hk' & Hrun').
  unfold value_of. rewrite Hrun, Hrun'. cbn [fst].
  pose proof (stops_at_monotone _ _ _ _ _ HB Hk Hk') as Hle.
  replace k with (k' + (k - k'))%nat by lia.
  rewrite <- drop_drop. apply suffix_drop.
Qed.

Lemma truncateToCharLimit_budget_monotone_witness :
  value_of (truncateToCharLimit Examples.ten_messages 50)
    (Examples.start Examples.defaults)
  `suffix_of`
  value_of (truncateToCharLimit Examples.ten_messages 150)
    (Examples.start Examples.defaults).
Proof.
  apply (truncateToCharLimit_budget_monotone Examples.ten_messages 50 150
           (Examples.start Examples.defaults) (Examples.start Examples.defaults)).
  lia.
Defined.

(** X16.  Budgeting again with the same budget changes nothing. *)
Theorem truncateToCharLimit_idempotent (messages : list Message) (maxChars : Z)
    (w w' : World) :
  let out := value_of (truncateToCharLimit messages maxChars) w in
  value_of (truncateToCharLimit out maxChars) w' = out.
Proof.
  intros out.
  destruct (truncateToCharLimit_run messages maxChars w)
    as (k & (Hk & Hne & Hc & Hmax) & Hrun).
  assert (out = drop k messages) as -> by (unfold out, value_of; by rewrite Hrun).
  rewrite (truncateToCharLimit_value _ _ _ 0); [by rewrite drop_0|].
  split; [lia|]. split; [|split].
  - intros Hnil. destruct (drop k messages); [done|cbn; lia].
  - by rewrite drop_0.
  - discriminate.
Qed.

(** ** The formatter *)

(** The context, read off the code, with the selection and the budgeting
    it runs named. *)
Lemma buildOptimizedContext_value rnd history prompt w :
  value_of (buildOptimizedContext rnd history prompt) w =
    let cfg := CONFIG w in
    let selected := value_of (selectRelevantMessages rnd history prompt) w in
    let budgeted := value_of (truncateToCharLimit selected (MAX_CONTEXT_CHARS cfg)) w in
    (if (0 <? length budgeted)%nat then
       foldl String.append ("Conversation context:" ++ newline ++ newline)
         (imap (context_line cfg (length budgeted)) budgeted)
       ++ newline ++ "---" ++ newline ++ newline
     else "")%string.
Proof.
  unfold buildOptimizedContext. run_monad.
  set (w1 := world_after (selectRelevantMessages rnd history prompt) w).
  assert (CONFIG w1 = CONFIG w) as Hw1
    by apply console_only_world, console_only_selectRelevantMessages.
  set (selected := value_of (selectRelevantMessages rnd history prompt) w).
  set (w2 := world_after _ w1).
  assert (CONFIG w2 = CONFIG w1) as Hw2
    by apply console_only_world, console_only_truncateToCharLimit.
  rewrite Hw2, Hw1.
  by rewrite (console_only_value _ w1 w)
    by (apply console_only_truncateToCharLimit || done).
Qed.

(** X17.  With a positive window, the context is the empty string for the
    empty history and for no other. *)
Theorem buildOptimizedContext_empty (rnd : Q → Q) (history : list Message)
    (prompt : string) (w : World) :
  0 < MIN_RECENT_MESSAGES (CONFIG w) →
  value_of (buildOptimizedContext rnd history prompt) w = EmptyString
  ↔ history = [].
Proof.
  intros Hrecent. rewrite buildOptimizedContext_value. cbn zeta. split.
  - intros Hempty. destruct history as [|m0 history]; [done|]. exfalso.
    set (selected := value_of (selectRelevantMessages rnd (m0 :: history) prompt) w)
      in *.
    assert (selected ≠ []) as Hselected
      by by apply selectRelevantMessages_nonempty.
    pose proof (truncateToCharLimit_nonempty selected (MAX_CONTEXT_CHARS (CONFIG w)) w
                  Hselected) as Hne.
    destruct (value_of (truncateToCharLimit selected _) w) as [|m1 budgeted];
      [done|].
    cbn [length Nat.ltb Nat.leb] in Hempty.
    destruct (foldl _ _ _); discriminate Hempty.
  - intros ->. reflexivity.
Qed.

Lemma buildOptimizedContext_empty_witness :
  value_of (buildOptimizedContext Examples.exact [] "a good pizza recipe")
    (Examples.start Examples.defaults)
  = EmptyString.
Proof.
  apply (buildOptimizedContext_empty Examples.exact [] "a good pizza recipe"
           (Examples.start Examples.defaults)).
  - reflexivity.
  - reflexivity.
Defined.

Lemma append_assoc (s1 s2 s3 : string) :
  ((s1 ++ s2) ++ s3 = s1 ++ (s2 ++ s3))%string.
Proof.
  induction s1 as [|c s1 IH]; [done|].
  change (String c ((s1 ++ s2) ++ s3) = String c (s1 ++ (s2 ++ s3)))%string.
  by rewrite IH.
Qed.

Lemma foldl_append (init : string) (lines : list string) (trailer : string) :
  (foldl String.append init lines ++ trailer
   = init ++ foldr String.append trailer lines)%string.
Proof.
  revert init. induction lines as [|line lines IH]; intros init; [done|].
  cbn [foldl foldr]. by rewrite IH, append_assoc.
Qed.

(** The lines of [count] messages from position [offset] on: bullets up
    to the window of the last [MIN_RECENT_MESSAGES] positions, arrows in
    it. *)
Lemma imap_context_line (cfg : Config) (count offset : nat) (messages : list Message) :
  let older := Z.to_nat (Z.of_nat count - MIN_RECENT_MESSAGES cfg) in
  imap (λ index, context_line cfg count (offset + index)) messages
  = (marked_line bullet <$> take (older - offset) messages)
    ++ (marked_line arrow <$> drop (older - offset) messages).
Proof.
  intros older. revert offset.
  induction messages as [|msg messages IH]; intros offset.
  - by rewrite take_nil, drop_nil.
  - rewrite imap_cons.
    rewrite (imap_ext _ (λ index, context_line cfg count (S offset + index)))
      by (intros i x _; cbn; f_equal; lia).
    rewrite IH, Nat.add_0_r. unfold context_line at 1. fold (marked_line arrow msg).
    destruct (decide (older ≤ offset)%nat) as [Hle|Hgt].
    + rewrite bool_decide_eq_true_2 by lia.
      replace (older - offset)%nat with 0%nat by lia.
      replace (older - S offset)%nat with 0%nat by lia. done.
    + rewrite bool_decide_eq_false_2 by lia.
      replace (older - offset)%nat with (S (older - S offset)) by lia. done.
Qed.

(** X18.  The context is empty when no message is left after budgeting.
    Otherwise it is the header, one line for each message left, in their
    order, and the separator; the lines of the last [MIN_RECENT_MESSAGES]
    of these messages start with the arrow and the lines before them with
    the bullet. *)
Theorem buildOptimizedContext_layout (rnd : Q → Q) (history : list Message)
    (prompt : string) (w : World) :
  let cfg := CONFIG w in
  let selected := value_of (selectRelevantMessages rnd history prompt) w in
  let budgeted := value_of (truncateToCharLimit selected (MAX_CONTEXT_CHARS cfg)) w in
  let older := Z.to_nat (Z.of_nat (length budgeted) - MIN_RECENT_MESSAGES cfg) in
  value_of (buildOptimizedContext rnd history prompt) w =
    match budgeted with
    | [] => EmptyString
    | _ =>
        ("Conversation context:" ++ newline ++ newline
         ++ foldr String.append (newline ++ "---" ++ newline ++ newline)
              ((marked_line bullet <$> take older budgeted)
               ++ (marked_line arrow <$> drop older budgeted)))%string
    end.
Proof.
  intros cfg selected budgeted older.
  rewrite buildOptimizedContext_value. cbn zeta. fold cfg selected budgeted.
  unfold older. clear older.
  destruct budgeted as [|m0 l]; [done|].
  change (0 <? length (m0 :: l))%nat with true. cbv iota.
  rewrite foldl_append, !append_assoc.
  pose proof (imap_context_line cfg (length (m0 :: l)) 0 (m0 :: l)) as Hlines.
  cbv zeta in Hlines. rewrite Nat.sub_0_r in Hlines. by rewrite <- Hlines.
Qed.

Lemma drop_app_parts {A} (l1 l2 : list A) (k : nat) :
  take (length l1 - k) (drop k (l1 ++ l2)) = drop k l1
  ∧ drop (length l1 - k) (drop k (l1 ++ l2)) = drop (k - length l1) l2.
Proof.
  rewrite drop_app.
  assert (length (drop k l1) = (length l1 - k)%nat) as Hlen by apply length_drop.
  split.
  - rewrite take_app, <- Hlen, take_ge, Nat.sub_diag, take_0, app_nil_r by lia. done.
  - rewrite drop_app, <- Hlen, drop_ge, Nat.sub_diag, drop_0 by lia. done.
Qed.

(** X19.  For a chronological history and a positive window [n], the
    markers tell where a message comes from: the messages whose lines
    get the bullet are older messages the selector kept, from before the
    window, and those whose lines get the arrow are the last messages of
    the window. *)
Theorem buildOptimizedContext_markers (rnd : Q → Q) (history : list Message)
    (prompt : string) (w : World) :
  let cfg := CONFIG w in
  let n := Z.to_nat (MIN_RECENT_MESSAGES cfg) in
  let selected := value_of (selectRelevantMessages rnd history prompt) w in
  let budgeted := value_of (truncateToCharLimit selected (MAX_CONTEXT_CHARS cfg)) w in
  let older := Z.to_nat (Z.of_nat (length budgeted) - MIN_RECENT_MESSAGES cfg) in
  chronological history →
  0 < MIN_RECENT_MESSAGES cfg →
  take older budgeted ⊆+ take (length history - n) history
  ∧ drop older budgeted `suffix_of` last_entries n history.
Proof.
  intros cfg n selected budgeted older Hhistory Hrecent.
  destruct (selectRelevantMessages_parts rnd history prompt w Hhistory Hrecent)
    as (kept & Hkept & Hout).
  fold cfg n selected in Hout, Hkept.
  destruct (truncateToCharLimit_run selected (MAX_CONTEXT_CHARS cfg) w)
    as (k & (Hk & _) & Hrun).
  assert (budgeted = drop k selected) as Hbudgeted
    by (unfold budgeted, value_of; by rewrite Hrun).
  set (sorted := JsArray.sort by_timestamp kept) in *.
  assert (length sorted = length kept) as Hsorted
    by (unfold sorted; by rewrite sort_perm).
  assert (older = (length sorted - k)%nat) as ->.
  { unfold older. rewrite Hbudgeted, length_drop, Hout, length_app.
    unfold last_entries. rewrite length_drop.
    destruct (decide (n ≤ length history)%nat) as [Hle|Hgt]; [lia|].
    apply submseteq_length in Hkept. rewrite length_take in Hkept. lia. }
  rewrite Hbudgeted, Hout.
  destruct (drop_app_parts sorted (last_entries n history) k) as [-> ->].
  split; [|apply suffix_drop].
  etransitivity; [apply sublist_submseteq, sublist_drop|].
  unfold sorted. by rewrite sort_perm.
Qed.

Lemma buildOptimizedContext_markers_witness :
  let selected :=
    value_of
      (selectRelevantMessages Examples.exact Examples.pizza_history
         "a good pizza recipe")
      (Examples.start Examples.defaults) in
  let budgeted :=
    value_of (truncateToCharLimit selected 4000) (Examples.start Examples.defaults) in
  drop (Z.to_nat (Z.of_nat (length budgeted) - 3)) budgeted
  `suffix_of` last_entries 3 Examples.pizza_history.
Proof.
  apply (buildOptimizedContext_markers Examples.exact Examples.pizza_history
           "a good pizza recipe" (Examples.start Examples.defaults)).
  - repeat constructor; cbn; lia.
  - reflexivity.
Defined.

(** ** The statistics: counts and budget *)

Lemma cost_characters (messages : list Message) :
  cost messages = characters messages + 30 * Z.of_nat (length messages).
Proof.
  induction messages as [|m messages IH]; [done|].
  rewrite cost_cons, IH. unfold characters, msgSize. cbn [foldr length]. lia.
Qed.

(** X20.  Of the three counts of the statistics none exceeds the one
    before it: included, relevant, total.  With a positive window a
    history that is not empty has a message included. *)
Theorem getContextStats_counts (rnd : Q → Q) (history : list Message)
    (prompt : string) (w : World) :
  let stats := value_of (getContextStats rnd history prompt) w in
  (includedMessages stats ≤ relevantMessages stats ≤ totalMessages stats)%nat
  ∧ (0 < MIN_RECENT_MESSAGES (CONFIG w) → history ≠ [] →
     (1 ≤ includedMessages stats)%nat).
Proof.
  intros stats. unfold stats. rewrite getContextStats_value. cbn.
  set (selected := value_of (selectRelevantMessages rnd history prompt) w).
  split; [split|].
  - destruct (truncateToCharLimit_run selected (MAX_CONTEXT_CHARS (CONFIG w)) w)
      as (k & _ & Hrun).
    unfold value_of. rewrite Hrun. cbn [fst]. rewrite length_drop. lia.
  - apply submseteq_length, selectRelevantMessages_submseteq.
  - intros Hrecent Hhistory.
    pose proof (truncateToCharLimit_nonempty selected (MAX_CONTEXT_CHARS (CONFIG w)) w
                  (selectRelevantMessages_nonempty _ _ _ _ Hrecent Hhistory)) as Hne.
    destruct (value_of (truncateToCharLimit selected _) w); [done|cbn; lia].
Qed.

(** X21.  When the statistics count two included messages or more, their
    characters and the overhead of 30 for each stay within
    [MAX_CONTEXT_CHARS]. *)
Theorem getContextStats_within_budget (rnd : Q → Q) (history : list Message)
    (prompt : string) (w : World) :
  let stats := value_of (getContextStats rnd history prompt) w in
  (2 ≤ includedMessages stats)%nat →
  totalChars stats + 30 * Z.of_nat (includedMessages stats)
  ≤ MAX_CONTEXT_CHARS (CONFIG w).
Proof.
  intros stats. unfold stats. rewrite getContextStats_value. cbn.
  set (selected := value_of (selectRelevantMessages rnd history prompt) w).
  destruct (truncateToCharLimit_run selected (MAX_CONTEXT_CHARS (CONFIG w)) w)
    as (k & (_ & _ & Hc & _) & Hrun).
  unfold value_of at 1 2 3. rewrite Hrun. cbn [fst].
  intros Hlen. rewrite <- cost_characters. destruct Hc as [Hc|Hc]; [done|lia].
Qed.

Lemma getContextStats_within_budget_witness :
  let stats :=
    value_of (getContextStats Examples.exact Examples.pizza_history "pizza dough")
      (Examples.start Examples.defaults) in
  totalChars stats + 30 * Z.of_nat (includedMessages stats) ≤ 4000.
Proof.
  apply (getContextStats_within_budget Examples.exact Examples.pizza_history
           "pizza dough" (Examples.start Examples.defaults)).
  vm_compute. lia.
Defined.

(** ** The providers *)

Lemma or_text_nonempty (v : option string) (fallback : string) :
  fallback ≠ EmptyString → or_text v fallback ≠ EmptyString.
Proof.
  intros Hf. unfold or_text. destruct v as [s|]; [|done].
  by destruct (String.eqb_spec s EmptyString).
Qed.

Lemma or_text_eqb (v : option string) (fallback : string) :
  fallback ≠ EmptyString → String.eqb (or_text v fallback) EmptyString = false.
Proof. intros Hf. by apply String.eqb_neq, or_text_nonempty. Qed.

Lemma falsy_text_false (s : string) :
  falsy_text (Some s) = false ↔ s ≠ EmptyString.
Proof. unfold falsy_text. by destruct (String.eqb_spec s EmptyString). Qed.

Lemma falsy_text_or_text (v : option string) :
  falsy_text (Some (or_text v EmptyString)) = falsy_text v.
Proof.
  destruct v as [s|]; [|done]. unfold or_text, falsy_text.
  destruct (String.eqb_spec s EmptyString); [done|by apply String.eqb_neq].
Qed.

Lemma or_default_twice parsed fallback fallback' :
  JsNumber.falsy fallback = false →
  or_default (or_default parsed fallback) fallback' = or_default parsed fallback.
Proof.
  intros Hf. unfold or_default at 1. by rewrite or_default_truthy.
Qed.

Lemma or_default_Z_eqb parsed fallback :
  fallback ≠ 0 → (or_default_Z parsed fallback =? 0) = false.
Proof. intros Hf. by apply Z.eqb_neq, or_default_Z_nonzero. Qed.

(** The names [PROVIDERS] has an own property for. *)
Lemma own_property_PROVIDERS (name : string) :
  own_property PROVIDERS name =
    if String.eqb name "ollama" then Some OllamaProvider
    else if String.eqb name "claude" then Some ClaudeProvider
    else if String.eqb name "openai" then Some OpenAIProvider
    else None.
Proof.
  unfold PROVIDERS. cbn [own_property]. by rewrite !(String.eqb_sym _ name).
Qed.

(** Validation after construction: an Ollama provider always passes, its
    model having a default; the other two pass when the configuration has
    an API key that is not empty. *)
Lemma validateConfig_new (class : ProviderClass) (config : Properties) :
  validateConfig (new class config) =
    match class with
    | OllamaProvider => Returned true
    | ClaudeProvider =>
        if falsy_text (apiKey config)
        then Thrown (Error "Claude: API key is required") else Returned true
    | OpenAIProvider =>
        if falsy_text (apiKey config)
        then Thrown (Error "OpenAI: API key is required") else Returned true
    end.
Proof.
  destruct class; [|done|done].
  unfold validateConfig. cbn [new provider_class this model].
  rewrite (proj2 (falsy_text_false _)); [done|]. by apply or_text_nonempty.
Qed.

(** X22.  [createProvider] returns a provider, and logs that it did, in
    two cases: the name, in lower case, is [ollama], whatever the
    configuration; or it is [claude] or [openai] and the configuration
    has an API key that is not empty.  In any other case it throws and
    logs nothing; for a name that is no provider the exception is the
    unknown-provider error, or, when the name is that of a property every
    object inherits, a [TypeError]. *)
Theorem createProvider_outcome (providerName : string) (config : Properties) :
  let name := toLowerCase providerName in
  let passes :=
    name = "ollama"%string
    ∨ ((name = "claude"%string ∨ name = "openai"%string)
       ∧ falsy_text (apiKey config) = false) in
  (passes →
   ∃ class,
     own_property PROVIDERS name = Some class
     ∧ createProvider providerName config
       = (Returned (new class config), [InitializedProvider providerName]))
  ∧ (¬ passes →
     ∃ e,
       createProvider providerName config = (Thrown e, [])
       ∧ (own_property PROVIDERS name = None →
          e = if inherited name then TypeError
              else Error ("Unknown provider: " ++ providerName
                          ++ ". Available: ollama, claude, openai"))).
Proof.
  intros name passes. unfold passes, createProvider. fold name.
  rewrite own_property_PROVIDERS.
  destruct (String.eqb_spec name "ollama") as [Ho|Ho].
  { split; [|intros []; by left]. intros _. exists OllamaProvider.
    by rewrite validateConfig_new. }
  destruct (String.eqb_spec name "claude") as [Hc|Hc].
  { rewrite validateConfig_new. destruct (falsy_text (apiKey config)) eqn:Hkey.
    - split; [intros [?|[_ ?]]; done|]. intros _. by eexists.
    - split; [|intros []; right; split; [by left|done]].
      intros _. by exists ClaudeProvider. }
  destruct (String.eqb_spec name "openai") as [Hp|Hp].
  { rewrite validateConfig_new. destruct (falsy_text (apiKey config)) eqn:Hkey.
    - split; [intros [?|[_ ?]]; done|]. intros _. by eexists.
    - split; [|intros []; right; split; [by right|done]].
      intros _. by exists OpenAIProvider. }
  split; [intros [?|[[?|?] _]]; done|]. intros _.
  unfold inherited. destruct (JsObject.own _ name); by eexists.
Qed.

(** X23.  [initializeLLMProvider] reads the provider name from
    [LLM_PROVIDER], [ollama] when that is unset or empty, and ignores its
    letter case.  For [ollama] it always returns a validated provider.
    For [claude] and [openai] it does so when the API key of the
    environment is set and not empty, and throws the provider's
    key-required error when not.  For any other name it throws the
    unknown-provider error.  It logs one line when it returns and nothing
    when it throws. *)
Theorem initializeLLMProvider_outcome (env : gmap string string)
    (parseInt : option string → option Z)
    (parseFloat : option string → JsNumber.number) :
  let providerName := or_text (env !! "LLM_PROVIDER"%string) "ollama" in
  let name := toLowerCase providerName in
  let result := initializeLLMProvider env parseInt parseFloat in
  let initialized (class : ProviderClass) :=
    ∃ provider,
      result = (Returned provider, [InitializedProvider providerName])
      ∧ provider_class provider = class
      ∧ validateConfig provider = Returned true in
  (name = "ollama"%string → initialized OllamaProvider)
  ∧ (name = "claude"%string →
     if falsy_text (env !! "CLAUDE_API_KEY"%string)
     then result = (Thrown (Error "Claude: API key is required"), [])
     else initialized ClaudeProvider)
  ∧ (name = "openai"%string →
     if falsy_text (env !! "OPENAI_API_KEY"%string)
     then result = (Thrown (Error "OpenAI: API key is required"), [])
     else initialized OpenAIProvider)
  ∧ (own_property PROVIDERS name = None →
     result = (Thrown (Error ("Unknown provider: " ++ providerName)), [])).
Proof.
  intros providerName name result initialized.
  unfold initialized, result, initializeLLMProvider.
  fold providerName name. unfold createProvider. fold name.
  rewrite own_property_PROVIDERS.
  split; [|split; [|split]].
  - intros ->. cbn [String.eqb Ascii.eqb Bool.eqb].
    eexists. split; [by rewrite validateConfig_new|].
    split; [done|by rewrite validateConfig_new].
  - intros ->. cbn [String.eqb Ascii.eqb Bool.eqb].
    rewrite validateConfig_new. cbn [apiKey]. rewrite falsy_text_or_text.
    destruct (falsy_text (env !! "CLAUDE_API_KEY"%string)) eqn:Hkey; [done|].
    eexists. split; [done|]. split; [done|].
    rewrite validateConfig_new. cbn [apiKey]. by rewrite falsy_text_or_text, Hkey.
  - intros ->. cbn [String.eqb Ascii.eqb Bool.eqb].
    rewrite validateConfig_new. cbn [apiKey]. rewrite falsy_text_or_text.
    destruct (falsy_text (env !! "OPENAI_API_KEY"%string)) eqn:Hkey; [done|].
    eexists. split; [done|]. split; [done|].
    rewrite validateConfig_new. cbn [apiKey]. by rewrite falsy_text_or_text, Hkey.
  - by repeat destruct (String.eqb name _).
Qed.

(** X24.  A provider that [initializeLLMProvider] returns has the
    settings of its configuration: a model name that is not empty, so
    that the default model of the provider class is never used; a
    temperature that is neither zero nor NaN; and a token limit and a
    context window that are not zero. *)
Theorem initializeLLMProvider_settings (env : gmap string string)
    (parseInt : option string → option Z)
    (parseFloat : option string → JsNumber.number)
    (provider : Provider) (log : list ProviderLog) :
  initializeLLMProvider env parseInt parseFloat = (Returned provider, log) →
  (∃ name, name ≠ EmptyString
     ∧ model (config provider) = Some name
     ∧ model (this provider) = Some name
     ∧ reported_model provider = Some name)
  ∧ (∃ t, JsNumber.falsy t = false
       ∧ temperature (config provider) = Some t
       ∧ temperature (this provider) = Some t)
  ∧ maxTokens (this provider) = maxTokens (config provider)
  ∧ contextWindow (this provider) = contextWindow (config provider)
  ∧ maxTokens (this provider) ≠ Some 0
  ∧ contextWindow (this provider) ≠ Some 0.
Proof.
  unfold initializeLLMProvider, createProvider.
  set (name := toLowerCase _). rewrite own_property_PROVIDERS.
  assert (JsNumber.falsy (JsNumber.Finite (7 # 10)) = false) as Hseven by done.
  destruct (String.eqb name "ollama");
    [|destruct (String.eqb name "claude");
      [|destruct (String.eqb name "openai"); [|done]]];
    rewrite validateConfig_new; cbn [apiKey];
    try (destruct (falsy_text _); [done|]);
    intros [= <- _]; unfold reported_model; cbn;
    rewrite ?or_text_eqb, ?or_default_Z_eqb, ?or_default_twice by done;
    (split; [eexists; split; [|done]; by apply or_text_nonempty|]);
    (split; [eexists; split; [|done]; by apply or_default_truthy|]);
    repeat split; try done; intros [= H0]; by apply or_default_Z_nonzero in H0.
Qed.

Lemma initializeLLMProvider_settings_witness :
  ∃ name, name ≠ EmptyString
    ∧ reported_model Examples.local_ollama = Some name.
Proof.
  destruct (initializeLLMProvider_settings ∅ Builtins.parseInt
              (Builtins.parseFloat Examples.exact) Examples.local_ollama
              [InitializedProvider "ollama"])
    as ((name & Hname & _ & _ & Hreported) & _).
  - vm_compute. reflexivity.
  - exists name. split; [exact Hname|exact Hreported].
Defined.

Example initializeLLMProvider_unset :
  initializeLLMProvider ∅ Builtins.parseInt (Builtins.parseFloat Examples.exact)
  = (Returned Examples.local_ollama, [InitializedProvider "ollama"]).
Proof. vm_compute. reflexivity. Qed.

Example initializeLLMProvider_without_key :
  initializeLLMProvider Examples.cloud Builtins.parseInt
    (Builtins.parseFloat Examples.exact)
  = (Thrown (Error "Claude: API key is required"), []).
Proof. vm_compute. reflexivity. Qed.

(** [PROVIDERS.constructor] is [Object]: constructing gives back the
    configuration, which has no [validateConfig]. *)
Example createProvider_inherited (config : Properties) :
  createProvider "Constructor" config = (Thrown TypeError, []).
Proof. reflexivity. Qed.

(** ** The conversation store *)

Lemma reverse_newest_first (rows : list Message) :
  newest_first rows → chronological (reverse rows).
Proof.
  intros Hrows. apply StronglySorted_Sorted, StronglySorted_reverse.
  apply Sorted_StronglySorted; [|exact Hrows].
  intros a b c. unfold flip. lia.
Qed.

(** X25.  When the query gives its rows newest first, as its
    [ORDER BY timestamp DESC] asks, the history that
    [getExtendedHistory] returns is in chronological order, also when
    the query fails; and so are the selector's output for that history
    and what is left of it after budgeting. *)
Theorem getExtendedHistory_chronological (rnd : Q → Q)
    (getMessages_all : string → string → Z → list Message + string)
    (userId channelId : string) (limit : option Z) (prompt : string) (w : World) :
  (∀ u c l rows, getMessages_all u c l = inl rows → newest_first rows) →
  let history := (getExtendedHistory getMessages_all userId channelId limit).1 in
  let selected := value_of (selectRelevantMessages rnd history prompt) w in
  let budgeted :=
    value_of (truncateToCharLimit selected (MAX_CONTEXT_CHARS (CONFIG w))) w in
  chronological history ∧ chronological selected ∧ chronological budgeted.
Proof.
  intros Hquery history selected budgeted.
  assert (chronological history) as Hhistory.
  { unfold history, getExtendedHistory, getHistory.
    destruct (getMessages_all _ _ _) as [rows|error] eqn:Hrows; [|constructor].
    by eapply reverse_newest_first, Hquery. }
  assert (chronological selected) as Hselected
    by by apply selectRelevantMessages_sorted.
  split; [done|]. split; [done|].
  destruct (truncateToCharLimit_run selected (MAX_CONTEXT_CHARS (CONFIG w)) w)
    as (k & _ & Hrun).
  unfold budgeted, value_of. rewrite Hrun. cbn [fst].
  eapply chronological_suffix; [apply suffix_drop|done].
Qed.

Lemma getExtendedHistory_chronological_witness :
  chronological (getExtendedHistory Examples.pizza_store "U1" "C1" None).1.
Proof.
  apply (getExtendedHistory_chronological Examples.exact Examples.pizza_store
           "U1" "C1" None "a good pizza recipe" (Examples.start Examples.defaults)).
  intros u c l rows [= <-]. vm_compute. repeat constructor; discriminate.
Defined.
